(** * BlackBird MCTS core ([src/mcts.py]): a shallow embedding

    The search tree of [mcts.py] is a graph of mutable [Node] objects that
    point at each other ([Children], [Parent]) and that carry numpy arrays
    mutated in place.  The embedding keeps that shape:

    - the object store is an arena, a [list] of node records addressed by
      index ([ref]); attribute writes are list updates at that index;
    - Python exceptions are values of a small error monad ([result]);
    - recursion through the store ([BackProp], [_mergeAll]) and the search
      loop take fuel; running out of it is its own outcome ([OutOfFuel]);
    - Python [float]s are idealised as exact rationals ([Q]); the one place
      where numpy leaves the rationals, a division by a zero sum, is kept
      through the IEEE specials [Inf] and [NaN];
    - the equality and the [Player] attribute of the game state
      ([StateOps]), the methods a concrete engine overrides ([Extension]),
      the wall clock and the random generator ([Oracle]) are interfaces. *)

From Stdlib Require Import QArith Qfield Lia Lqa List.
From stdpp Require Import base option list gmap strings.

Local Open Scope Q_scope.

#[local] Set Default Proof Using "Type".

(** ** Outcomes of a call *)

Inductive exn : Type :=
| AssertionError (msg : string)
| AttributeError
| IndexError
| KeyError (key : string)
| TypeError
| ValueError
| NotImplementedError
| ExternalError (msg : string)
| NoSuchObject.

Inductive result (A : Type) : Type :=
| Ok (a : A)
| Raise (e : exn)
| OutOfFuel.

Arguments Ok {A} a.
Arguments Raise {A} e.
Arguments OutOfFuel {A}.

Definition bind {A B : Type} (m : result A) (k : A -> result B) : result B :=
  match m with
  | Ok a => k a
  | Raise e => Raise e
  | OutOfFuel => OutOfFuel
  end.

Notation "x <- m ;; k" := (bind m (fun x => k))
  (at level 100, m at next level, right associativity).

(** [for x in xs: body], threading the state [s]. *)
Fixpoint for_each {A S : Type} (body : S -> A -> result S) (xs : list A) (s : S)
  : result S :=
  match xs with
  | [] => Ok s
  | x :: xs' => s' <- body s x ;; for_each body xs' s'
  end.

(** ** Numbers *)

(** The value of a numpy float: a rational, or what a division by zero
    leaves behind. *)
Inductive npfloat : Type :=
| Fin (q : Q)
| Inf (negative : bool)
| NaN.

Definition Qis_zero (q : Q) : bool := Qeq_bool q 0.
Definition Qis_neg (q : Q) : bool := negb (Qle_bool 0 q).

(** [x / s] on floats: [0/0] is [nan], [x/0] is [inf] with the sign of [x]. *)
Definition np_div (x s : Q) : npfloat :=
  if Qis_zero s then
    if Qis_zero x then NaN else Inf (Qis_neg x)
  else Fin (x / s).

(** [x * m] for a finite [m]: [nan] absorbs, [inf * 0] is [nan]. *)
Definition np_mul (x : npfloat) (m : Q) : npfloat :=
  match x with
  | Fin q => Fin (q * m)
  | Inf neg => if Qis_zero m then NaN else Inf (xorb neg (Qis_neg m))
  | NaN => NaN
  end.

(** Python's builtin [sum]: [0 + x0 + x1 + ...], left to right. *)
Definition Qsum (xs : list Q) : Q := fold_left Qplus xs 0.

(** [np.multiply(a, b)] on two one-dimensional arrays: element by element
    when the lengths agree; an operand of length one is broadcast over the
    other one (over an empty one too, with an empty result); any other two
    lengths raise [ValueError].  A scalar operand gives what the array of
    length one with that entry gives. *)
Definition np_multiply (a b : list Q) : result (list Q) :=
  if Nat.eqb (length a) (length b) then Ok (zip_with Qmult a b)
  else
    match a, b with
    | [x], _ => Ok (map (Qmult x) b)
    | _, [y] => Ok (map (fun x => x * y) a)
    | _, _ => Raise ValueError
    end.

(** An element-wise binary operation on arrays of one node: the operands
    agree in length, or the operation raises [ValueError].  The mask and the
    two caches of a node get one length in [Node.__init__] and nothing
    resizes them.  [Priors] has that length too, unless the mask has length
    one and the priors another; numpy then broadcasts the cache over the
    priors and raises [ValueError] at the in-place addition of
    [ChildProbability], the exception that is raised here.  Arrays that were
    replaced by hand with arrays of other lengths are not covered. *)
Definition np_zip {A B C : Type} (f : A -> B -> C) (a : list A) (b : list B)
  : result (list C) :=
  if Nat.eqb (length a) (length b) then Ok (zip_with f a b) else Raise ValueError.

Definition mask (b : bool) : Q := if b then 1 else 0.
Definition Qnat (n : nat) : Q := inject_Z (Z.of_nat n).

(** [np.argmax]: the first index holding the maximum; an empty array raises. *)
Fixpoint argmax_from (best : Q) (besti : nat) (i : nat) (xs : list Q) : nat :=
  match xs with
  | [] => besti
  | x :: xs' =>
      if Qle_bool x best then argmax_from best besti (S i) xs'
      else argmax_from x i (S i) xs'
  end.

Definition np_argmax (xs : list Q) : result nat :=
  match xs with
  | [] => Raise ValueError
  | x :: xs' => Ok (argmax_from x 0%nat 1%nat xs')
  end.

Definition Qlt_bool (a b : Q) : bool := negb (Qle_bool b a).

(** Equality of numpy floats up to the representation of the rational. *)
Definition np_eqb (x y : npfloat) : bool :=
  match x, y with
  | Fin a, Fin b => Qeq_bool a b
  | Inf s, Inf t => Bool.eqb s t
  | NaN, NaN => true
  | _, _ => false
  end.

Fixpoint probs_eqb (xs ys : list npfloat) : bool :=
  match xs, ys with
  | [], [] => true
  | x :: xs', y :: ys' => np_eqb x y && probs_eqb xs' ys'
  | _, _ => false
  end.

(** ** The object store *)

Abbreviation ref := nat (only parsing).

Section Store.

Context {GameState : Type}.

(** A [Node] object.  [Plays] is a count, [LegalActions] a mask of booleans
    (as a number, [1] or [0]); the two caches are the numpy arrays
    [_childWinRates] and [_childPlays], the second holding counts.
    [Children] is [[]] on a new node, a list of slots after [AddChildren], and
    [None] once [_runMCTS] or [_mergeAll] has cut it off. *)
Record Node : Type := mkNode {
  State : GameState;
  Value : Q;
  Plays : nat;
  LegalActions : list bool;
  Children : option (list (option ref));
  Parent : option ref;
  Priors : list Q;
  _childWinRates : list Q;
  _childPlays : list nat
}.

Abbreviation heap := (list Node).

Definition get (h : heap) (r : ref) : result Node :=
  match h !! r with
  | Some n => Ok n
  | None => Raise NoSuchObject
  end.

Definition set_Value (v : Q) (n : Node) : Node :=
  mkNode (State n) v (Plays n) (LegalActions n) (Children n) (Parent n)
         (Priors n) (_childWinRates n) (_childPlays n).
Definition set_Plays (p : nat) (n : Node) : Node :=
  mkNode (State n) (Value n) p (LegalActions n) (Children n) (Parent n)
         (Priors n) (_childWinRates n) (_childPlays n).
Definition set_Children (c : option (list (option ref))) (n : Node) : Node :=
  mkNode (State n) (Value n) (Plays n) (LegalActions n) c (Parent n)
         (Priors n) (_childWinRates n) (_childPlays n).
Definition set_Parent (p : option ref) (n : Node) : Node :=
  mkNode (State n) (Value n) (Plays n) (LegalActions n) (Children n) p
         (Priors n) (_childWinRates n) (_childPlays n).
Definition set_childWinRates (w : list Q) (n : Node) : Node :=
  mkNode (State n) (Value n) (Plays n) (LegalActions n) (Children n) (Parent n)
         (Priors n) w (_childPlays n).
Definition set_childPlays (c : list nat) (n : Node) : Node :=
  mkNode (State n) (Value n) (Plays n) (LegalActions n) (Children n) (Parent n)
         (Priors n) (_childWinRates n) c.

(** [obj.attr = ...] on the object at [r]. *)
Definition update (h : heap) (r : ref) (f : Node -> Node) : result heap :=
  n <- get h r ;; Ok (<[r := f n]> h).

(** A new object goes to the end of the arena. *)
Definition alloc (h : heap) (n : Node) : heap * ref := (h ++ [n], length h).

(** *** [Node.__init__]

    [LegalActions] and the length of the two caches are taken from the mask
    alone; [Priors] is the product of the priors and the mask, which numpy
    broadcasts when one of the two has length one. *)
Definition Node_init (state : GameState) (legalActions : list bool) (priors : list Q)
  : result Node :=
  pr <- np_multiply priors (map mask legalActions) ;;
  Ok (mkNode state 0 0 legalActions (Some []) None pr
             (replicate (length legalActions) 0)
             (replicate (length legalActions) 0%nat)).

(** *** [Node.WinRate], [Node.AvgValue] *)
Definition WinRate (n : Node) : Q :=
  if Nat.ltb 0 (Plays n) then Value n / Qnat (Plays n) else 0.

Definition AvgValue (n : Node) : Q :=
  if Nat.ltb 0 (Plays n) then Value n / Qnat (Plays n) else 0.

(** [len(self.Children)] and [self.Children[i]]. *)
Definition children_len (n : Node) : result nat :=
  match Children n with
  | Some cs => Ok (length cs)
  | None => Raise TypeError
  end.

Definition child_at (n : Node) (i : nat) : result (option ref) :=
  match Children n with
  | Some cs => match cs !! i with
               | Some c => Ok c
               | None => Raise IndexError
               end
  | None => Raise TypeError
  end.

(** [a[i] = x] on a numpy array. *)
Definition store {A : Type} (a : list A) (i : nat) (x : A) : result (list A) :=
  if Nat.ltb i (length a) then Ok (<[i := x]> a) else Raise IndexError.

(** *** [Node.ChildWinRates]

    The loop writes into the array [self._childWinRates] of the node; the
    method returns that very array, so the caller's result is the node's
    attribute in the returned store. *)
Definition ChildWinRates_step (r : ref) (h : heap) (i : nat) : result heap :=
  n <- get h r ;;
  c <- child_at n i ;;
  match c with
  | None => Ok h
  | Some cr =>
      cn <- get h cr ;;
      w <- store (_childWinRates n) i (WinRate cn) ;;
      update h r (set_childWinRates w)
  end.

Definition ChildWinRates (h : heap) (r : ref) : result heap :=
  n <- get h r ;;
  len <- children_len n ;;
  for_each (ChildWinRates_step r) (seq 0 len) h.

(** *** [Node.ChildPlays] *)
Definition ChildPlays_step (r : ref) (h : heap) (i : nat) : result heap :=
  n <- get h r ;;
  c <- child_at n i ;;
  match c with
  | None => Ok h
  | Some cr =>
      cn <- get h cr ;;
      p <- store (_childPlays n) i (Plays cn) ;;
      update h r (set_childPlays p)
  end.

Definition ChildPlays (h : heap) (r : ref) : result heap :=
  n <- get h r ;;
  len <- children_len n ;;
  for_each (ChildPlays_step r) (seq 0 len) h.

(** *** [Node.ChildProbability]

    [rates] is the array [self._childWinRates] itself, and [rates += ...]
    adds in place: the exploration bonus ends up in the node's cache. *)
Definition bonus (f : Q) (plays : nat) (prior : Q) (childPlays : nat) : Q :=
  f * prior * Qnat plays / (1 + Qnat childPlays).

Definition ChildProbability (h : heap) (r : ref) (explorationFactor : Q)
  : result (heap * list npfloat) :=
  h1 <- ChildWinRates h r ;;
  h2 <- ChildPlays h1 r ;;
  n <- get h2 r ;;
  bs <- np_zip (bonus explorationFactor (Plays n)) (Priors n) (_childPlays n) ;;
  rates <- np_zip Qplus (_childWinRates n) bs ;;
  h3 <- update h2 r (set_childWinRates rates) ;;
  probs <- np_zip np_mul (map (fun x => np_div x (Qsum rates)) rates)
                  (map mask (LegalActions n)) ;;
  Ok (h3, probs).

End Store.

Arguments Node : clear implicits.

(** ** The engine *)

(** [Pool] is [None] when the attribute was never created. *)
Record MCTS : Type := mkMCTS {
  TimeLimit : option Q;
  PlayLimit : option Z;
  ExplorationRate : Q;
  Root : option ref;
  Threads : Z;
  Pool : option Z
}.

Definition set_Root (r : option ref) (e : MCTS) : MCTS :=
  mkMCTS (TimeLimit e) (PlayLimit e) (ExplorationRate e) r (Threads e) (Pool e).

(** *** [MCTS.__init__] *)
Definition MCTS_init (explorationRate : Q) (timeLimit : option Q)
    (playLimit : option Z) (threads : Z) : MCTS :=
  mkMCTS timeLimit playLimit explorationRate None threads
         (if (1 <? threads)%Z then Some threads else None).

(** The game state is opaque: it has an equality ([==]) and, when it is a
    proper state, a [Player] attribute, which has an equality too. *)
Class StateOps (GameState PlayerId : Type) : Type := {
  state_eqb : GameState -> GameState -> bool;
  player_eqb : PlayerId -> PlayerId -> bool;
  Player : GameState -> option PlayerId
}.

(** The methods of [MCTS] that raise [NotImplementedError] until a concrete
    game and evaluator override them.  [RunSimulation] gets the number of
    the episode, so that two episodes need not be the same. *)
Class Extension (GameState : Type) : Type := {
  MCTS_LegalActions : GameState -> list bool;
  MCTS_GetPriors : GameState -> list Q;
  MCTS_ApplyAction : GameState -> nat -> result GameState;
  MCTS_RunSimulation : nat -> list (Node GameState) -> ref -> result (list (Node GameState))
}.

(** The wall clock ([time.time()], by the number of the reading) and
    [np.random.choice]. *)
Class Oracle : Type := {
  time_time : nat -> Q;
  random_choice : nat -> list npfloat -> result nat
}.

Section Engine.

Context {GameState PlayerId : Type}.
Context `{!StateOps GameState PlayerId} `{!Extension GameState} `{!Oracle}.

Abbreviation heap := (list (Node GameState)).

(** Python values that leave the engine. *)
Inductive pyval : Type :=
| PyNone
| PyFloat (q : Q)
| PyInt (z : Z)
| PyState (s : GameState)
| PyNode (r : ref)
| PyPool (processes : Z)
| PyBoundMethod (self : ref) (name : string).

Definition py_opt {A : Type} (f : A -> pyval) (o : option A) : pyval :=
  match o with
  | Some a => f a
  | None => PyNone
  end.

(** [self.__dict__]: one entry per attribute that was assigned. *)
Definition MCTS_dict (e : MCTS) : gmap string pyval :=
  let d : gmap string pyval :=
    <["TimeLimit" := py_opt PyFloat (TimeLimit e)]>
    (<["PlayLimit" := py_opt PyInt (PlayLimit e)]>
    (<["ExplorationRate" := PyFloat (ExplorationRate e)]>
    (<["Root" := py_opt PyNode (Root e)]>
    (<["Threads" := PyInt (Threads e)]> ∅)))) in
  match Pool e with
  | Some p => <["Pool" := PyPool p]> d
  | None => d
  end.

(** *** [MCTS.__getstate__] *)
Definition MCTS_getstate (e : MCTS) : result (gmap string pyval) :=
  let self_dict := MCTS_dict e in
  match self_dict !! "Pool" with
  | Some _ => Ok (delete "Pool" self_dict)
  | None => Raise (KeyError "Pool")
  end.

(** *** [MCTS._applyAction]: the successor is computed, checked, and dropped. *)
Definition _applyAction (state : GameState) (action : nat) : result pyval :=
  s <- MCTS_ApplyAction state action ;;
  match Player s with
  | Some _ => Ok PyNone
  | None =>
      Raise (AssertionError
        "State must have a Player attribute that represents the player with the right to move.")
  end.

(** *** [MCTS._selectAction] *)
Definition _selectAction (e : MCTS) (h : heap) (clk : nat) (root : ref)
    (exploring : bool) : result (heap * nat) :=
  n <- get h root ;;
  match Children n with
  | None => Raise (AssertionError "The node has children to select.")
  | Some _ =>
      if negb exploring then
        h1 <- ChildWinRates h root ;;
        n1 <- get h1 root ;;
        masked <- np_zip Qmult (_childWinRates n1) (map mask (LegalActions n1)) ;;
        a <- np_argmax masked ;;
        Ok (h1, a)
      else
        hp <- ChildProbability h root (ExplorationRate e) ;;
        a <- random_choice clk (snd hp) ;;
        Ok (fst hp, a)
  end.

(** *** [MCTS._moveRoot], [MCTS.MoveRoot], [MCTS.DropRoot] *)
Fixpoint find_child (h : heap) (state : GameState) (cs : list (option ref))
  : result (option ref) :=
  match cs with
  | [] => Ok None
  | None :: cs' => find_child h state cs'
  | Some c :: cs' =>
      cn <- get h c ;;
      if state_eqb (State cn) state then Ok (Some c) else find_child h state cs'
  end.

Definition _moveRoot (h : heap) (e : MCTS) (state : GameState) : result MCTS :=
  match Root e with
  | None => Ok e
  | Some r =>
      n <- get h r ;;
      match Children n with
      | None => Ok (set_Root None e)
      | Some cs =>
          found <- find_child h state cs ;;
          match found with
          | Some c => Ok (set_Root (Some c) e)
          | None => Ok e
          end
      end
  end.

Definition MoveRoot (h : heap) (e : MCTS) (states : list GameState) : result MCTS :=
  for_each (_moveRoot h) states e.

Definition DropRoot (e : MCTS) : MCTS := set_Root None e.

(** *** [MCTS.BackProp] *)
Fixpoint BackProp (fuel : nat) (h : heap) (leaf : ref) (stateValue : Q)
    (playerForValue : PlayerId) : result heap :=
  match fuel with
  | O => OutOfFuel
  | S fuel' =>
      n <- get h leaf ;;
      let h1 := <[leaf := set_Plays (Plays n + 1) n]> h in
      match Parent n with
      | None => Ok h1
      | Some p =>
          pn <- get h1 p ;;
          match Player (State pn) with
          | None => Raise AttributeError
          | Some pl =>
              n1 <- get h1 leaf ;;
              let v := if player_eqb pl playerForValue
                       then Value n1 + stateValue
                       else Value n1 + (1 - stateValue) in
              BackProp fuel' (<[leaf := set_Value v n1]> h1) p stateValue playerForValue
          end
      end
  end.

(** *** [MCTS._mergeAll] *)

(** [for t in trees: target.Plays += t.Plays; target.Value += t.Value].
    A [None] among the trees has no [Plays]. *)
Definition add_stats (target : ref) (h : heap) (t : option ref) : result heap :=
  match t with
  | None => Raise AttributeError
  | Some tr =>
      tg <- get h target ;;
      tn <- get h tr ;;
      h1 <- update h target (set_Plays (Plays tg + Plays tn)) ;;
      tg1 <- get h1 target ;;
      tn1 <- get h1 tr ;;
      update h1 target (set_Value (Value tg1 + Value tn1))
  end.

(** [[t for t in trees if t.Children is not None]] *)
Fixpoint continued (h : heap) (trees : list (option ref)) : result (list ref) :=
  match trees with
  | [] => Ok []
  | None :: _ => Raise AttributeError
  | Some tr :: trees' =>
      tn <- get h tr ;;
      rest <- continued h trees' ;;
      Ok (match Children tn with
          | Some _ => tr :: rest
          | None => rest
          end)
  end.

(** [for c in target.Children: if c is not None: c.Parent = target] *)
Definition reparent (target : ref) (h : heap) (c : option ref) : result heap :=
  match c with
  | None => Ok h
  | Some cr => update h cr (set_Parent (Some target))
  end.

(** [[t.Children[i] for t in continuedTrees]] *)
Fixpoint slots_at (h : heap) (i : nat) (ts : list ref) : result (list (option ref)) :=
  match ts with
  | [] => Ok []
  | t :: ts' =>
      tn <- get h t ;;
      c <- child_at tn i ;;
      rest <- slots_at h i ts' ;;
      Ok (c :: rest)
  end.

(** The body of the loop over the child slots of [target], given the
    recursive call. *)
Definition merge_slot (rec : heap -> ref -> list (option ref) -> result heap)
    (target : ref) (continuedTrees : list ref) (h : heap) (i : nat) : result heap :=
  tg <- get h target ;;
  c <- child_at tg i ;;
  match c with
  | None => Ok h
  | Some cr =>
      sub <- slots_at h i continuedTrees ;;
      rec h cr sub
  end.

(** Lines 119 to 133: the statistics are added, the trees that still have
    children are kept, and a target without children takes those of the first
    of them.  The result is the store and, unless the method returns here,
    the trees the loop over the children goes on with. *)
Definition merge_head (h : heap) (target : ref) (trees : list (option ref))
  : result (heap * option (list ref)) :=
  h1 <- for_each (add_stats target) trees h ;;
  continuedTrees <- continued h1 trees ;;
  match continuedTrees with
  | [] => Ok (h1, None)
  | t :: rest =>
      tg <- get h1 target ;;
      match Children tg with
      | None =>
          tn <- get h1 t ;;
          h2 <- update h1 target (set_Children (Children tn)) ;;
          h3 <- update h2 t (set_Children None) ;;
          tg3 <- get h3 target ;;
          cs <- match Children tg3 with
                | Some cs => Ok cs
                | None => Raise TypeError
                end ;;
          h4 <- for_each (reparent target) cs h3 ;;
          Ok (h4, Some rest)
      | Some _ => Ok (h1, Some continuedTrees)
      end
  end.

Fixpoint _mergeAll (fuel : nat) (h : heap) (target : ref) (trees : list (option ref))
  : result heap :=
  match fuel with
  | O => OutOfFuel
  | S fuel' =>
      hd <- merge_head h target trees ;;
      match snd hd with
      | None => Ok (fst hd)
      | Some continuedTrees =>
          tg <- get (fst hd) target ;;
          len <- children_len tg ;;
          for_each (merge_slot (_mergeAll fuel') target continuedTrees)
                   (seq 0 len) (fst hd)
      end
  end.

(** *** [MCTS._runMCTS] *)

(** The [while] loop; [clk] counts the readings of the clock and the
    episodes, so that neither is tied to be the same twice. *)
Fixpoint search_loop (fuel : nat) (h : heap) (clk : nat) (root : ref)
    (endTime : option Q) (nPlays : option Z) : result (heap * nat) :=
  match fuel with
  | O => OutOfFuel
  | S fuel' =>
      let in_time := match endTime with
                     | None => (true, clk)
                     | Some t => (Qlt_bool (time_time clk) t, S clk)
                     end in
      if fst in_time then
        n <- get h root ;;
        if match nPlays with
           | None => true
           | Some p => (Z.of_nat (Plays n) <? p)%Z
           end
        then
          h' <- MCTS_RunSimulation (snd in_time) h root ;;
          search_loop fuel' h' (S (snd in_time)) root endTime nPlays
        else Ok (h, snd in_time)
      else Ok (h, snd in_time)
  end.

(** [c.Children = None] for every child of the root. *)
Definition kill_children (h : heap) (c : option ref) : result heap :=
  match c with
  | None => Ok h
  | Some cr => update h cr (set_Children None)
  end.

Definition _runMCTS (fuel : nat) (h : heap) (clk : nat) (root : ref)
    (endTime : option Q) (nPlays : option Z) : result (heap * nat) :=
  hc <- search_loop fuel h clk root endTime nPlays ;;
  n <- get (fst hc) root ;;
  match Children n with
  | None => Raise TypeError
  | Some cs =>
      h' <- for_each kill_children cs (fst hc) ;;
      Ok (h', snd hc)
  end.

(** *** [MCTS._runAsynch]

    The first loop makes a root per worker and hands it to the pool
    ([self.Pool] must exist); the second loop collects the results in the
    order of submission.  The workers do not interact, and the model runs
    them one after the other, each on its own root in the arena. *)
Definition submit_worker (e : MCTS) (state : GameState)
    (acc : heap * list ref) (_ : nat) : result (heap * list ref) :=
  n <- Node_init state (MCTS_LegalActions state) (MCTS_GetPriors state) ;;
  let hr := alloc (fst acc) n in
  match Pool e with
  | None => Raise AttributeError
  | Some _ => Ok (fst hr, snd acc ++ [snd hr])
  end.

Definition collect_worker (fuel : nat) (endTime : option Q) (nPlays : option Z)
    (acc : heap * nat) (root : ref) : result (heap * nat) :=
  _runMCTS fuel (fst acc) (snd acc) root endTime nPlays.

Definition _runAsynch (fuel : nat) (e : MCTS) (h : heap) (clk : nat)
    (state : GameState) (endTime : option Q) (nPlays : option Z)
  : result (heap * nat) :=
  hr <- for_each (submit_worker e state) (seq 0 (Z.to_nat (Threads e))) (h, []) ;;
  hc <- for_each (collect_worker fuel endTime nPlays) (snd hr) (fst hr, clk) ;;
  match Root e with
  | Some root =>
      h2 <- _mergeAll fuel (fst hc) root (map Some (snd hr)) ;;
      Ok (h2, snd hc)
  | None =>
      match snd hr with
      | [] => Ok hc
      | _ :: _ => Raise AttributeError
      end
  end.

(** *** [MCTS.FindMove] *)
Definition msg_primed : string := "MCTS has been primed for the correct input state.".
Definition msg_cutoff : string := "The MCTS algorithm has a cutoff point.".

(** [if x is None: x = self.X] *)
Definition resolve {A : Type} (override default : option A) : option A :=
  match override with
  | None => default
  | Some a => Some a
  end.

Record budget : Type := mkBudget {
  b_engine : MCTS;
  b_heap : heap;
  b_clk : nat;
  b_root : ref;
  b_endTime : option Q;
  b_playLimit : option Z
}.

(** Lines 74 to 86: the budget is resolved, the root is created when there
    is none, and the two preconditions are asserted. *)
Definition FindMove_preamble (e : MCTS) (h : heap) (clk : nat) (state : GameState)
    (moveTime : option Q) (playLimit : option Z) : result budget :=
  let moveTime := resolve moveTime (TimeLimit e) in
  let timed := match moveTime with
               | Some m => (Some (time_time clk + m), S clk)
               | None => (None, clk)
               end in
  let playLimit := resolve playLimit (PlayLimit e) in
  eh <- match Root e with
        | None =>
            n <- Node_init state (MCTS_LegalActions state) (MCTS_GetPriors state) ;;
            let hr := alloc h n in
            Ok (set_Root (Some (snd hr)) e, fst hr, snd hr)
        | Some r => Ok (e, h, r)
        end ;;
  let '(e1, h1, root) := eh in
  rn <- get h1 root ;;
  if negb (state_eqb (State rn) state) then Raise (AssertionError msg_primed)
  else
    match fst timed, playLimit with
    | None, None => Raise (AssertionError msg_cutoff)
    | _, _ => Ok (mkBudget e1 h1 (snd timed) root (fst timed) playLimit)
    end.

Record move : Type := mkMove {
  m_engine : MCTS;
  m_heap : heap;
  m_clk : nat;
  m_state : pyval;
  m_value : pyval;
  m_probs : list npfloat
}.

Definition FindMove (fuel : nat) (e : MCTS) (h : heap) (clk : nat) (state : GameState)
    (moveTime : option Q) (playLimit : option Z) : result move :=
  b <- FindMove_preamble e h clk state moveTime playLimit ;;
  let e1 := b_engine b in
  let root := b_root b in
  hc <- (if (Threads e1 =? 1)%Z then
           _runMCTS fuel (b_heap b) (b_clk b) root (b_endTime b) (b_playLimit b)
         else if (1 <? Threads e1)%Z then
           _runAsynch fuel e1 (b_heap b) (b_clk b) state (b_endTime b) (b_playLimit b)
         else Ok (b_heap b, b_clk b)) ;;
  ha <- _selectAction e1 (fst hc) (snd hc) root false ;;
  s <- _applyAction state (snd ha) ;;
  hp <- ChildProbability (fst ha) root 0 ;;
  Ok (mkMove e1 (fst hp) (snd hc) s (PyBoundMethod root "AvgValue") (snd hp)).

End Engine.

Arguments pyval : clear implicits.
Arguments budget : clear implicits.
Arguments move : clear implicits.

(** ** Notions the statements use *)

(** What [ChildProbability] returns for the rates [rates] and the mask
    [legal]: [np.multiply(rates/sum(rates), legal)]. *)
Definition normalised (rates : list Q) (legal : list bool) : list npfloat :=
  zip_with np_mul (map (fun x => np_div x (Qsum rates)) rates) (map mask legal).

(** The sum of a vector over the legal indices, when the entries there are
    finite. *)
Fixpoint legal_total (probs : list npfloat) (legal : list bool) : option Q :=
  match probs, legal with
  | p :: ps, b :: bs =>
      match legal_total ps bs with
      | Some rest =>
          if b then
            match p with
            | Fin q => Some (q + rest)
            | _ => None
            end
          else Some rest
      | None => None
      end
  | _, _ => Some 0
  end.

(** A call halts when it returns or raises: it does not run out of fuel. *)
Definition halts {A : Type} (m : result A) : Prop := m <> OutOfFuel.

Section Notions.

Context {GameState PlayerId : Type} `{!StateOps GameState PlayerId}.

Abbreviation heap := (list (Node GameState)).

(** [chain h r path]: following [Parent] from [r] visits exactly [path] and
    ends in a node without a parent. *)
Inductive chain (h : heap) : ref -> list ref -> Prop :=
| chain_top r n :
    h !! r = Some n -> Parent n = None -> chain h r [r]
| chain_up r n p path :
    h !! r = Some n -> Parent n = Some p -> chain h p path ->
    chain h r (r :: path).

(** The attributes [BackProp] never writes. *)
Definition same_shape (n n' : Node GameState) : Prop :=
  State n' = State n /\ LegalActions n' = LegalActions n /\
  Children n' = Children n /\ Parent n' = Parent n /\ Priors n' = Priors n /\
  _childWinRates n' = _childWinRates n /\ _childPlays n' = _childPlays n.

Definition has_player (h : heap) (r : ref) : Prop :=
  exists n, h !! r = Some n /\ is_Some (Player (State n)).

(** What [BackProp] credits to a node whose parent is [p]. *)
Definition credited (h : heap) (p : ref) (stateValue : Q) (playerForValue : PlayerId)
    (v v' : Q) : Prop :=
  exists pn pl, h !! p = Some pn /\ Player (State pn) = Some pl /\
    v' = (if player_eqb pl playerForValue then v + stateValue
          else v + (1 - stateValue)).

Definition backed_up (h : heap) (stateValue : Q) (playerForValue : PlayerId)
    (n n' : Node GameState) : Prop :=
  Plays n' = (Plays n + 1)%nat /\ same_shape n n' /\
  match Parent n with
  | None => Value n' = Value n
  | Some p => credited h p stateValue playerForValue (Value n) (Value n')
  end.

(** The statistics of the object at [r], if there is one. *)
Definition stats_at (h : heap) (r : ref) : option (nat * Q) :=
  (fun n => (Plays n, Value n)) <$> h !! r.

(** The statistics a tree of [trees] contributes, read in the store [h]. *)
Definition tree_plays (h : heap) (t : option ref) : nat :=
  match t ≫= (h !!.) with
  | Some n => Plays n
  | None => 0%nat
  end.

Definition tree_value (h : heap) (t : option ref) : Q :=
  match t ≫= (h !!.) with
  | Some n => Value n
  | None => 0
  end.

Definition keeps (h hx : heap) : Prop :=
  length hx = length h /\
  forall r n', hx !! r = Some n' ->
    exists n, h !! r = Some n /\ Children n' = Children n /\
              Plays n' = Plays n /\ Value n' = Value n.

Definition same_stats (h hx : heap) : Prop :=
  length hx = length h /\ forall r, stats_at hx r = stats_at h r.

(** The depth of every object in its tree: a child sits one level below the
    node that holds it.  With it the store is a forest in which the target
    and the worker roots stand side by side. *)
Definition graded (level : ref -> nat) (h : heap) : Prop :=
  forall r n cs c,
    h !! r = Some n -> Children n = Some cs -> Some c ∈ cs -> level c = S (level r).

Definition same_level (level : ref -> nat) (target : ref) (trees : list (option ref))
  : Prop :=
  forall t, Some t ∈ trees -> level t = level target.

(** [graded], as a test. *)
Definition slot_graded (level : ref -> nat) (r : ref) (c : option ref) : bool :=
  match c with
  | None => true
  | Some cr => Nat.eqb (level cr) (S (level r))
  end.

Definition node_graded (level : ref -> nat) (rn : ref * Node GameState) : bool :=
  match Children (snd rn) with
  | None => true
  | Some cs => forallb (slot_graded level (fst rn)) cs
  end.

Definition gradedb (level : ref -> nat) (h : heap) : bool :=
  forallb (node_graded level) (imap pair h).

(** Neither a time budget nor a play limit, after the defaults are taken. *)
Definition no_budget (e : MCTS) (moveTime : option Q) (playLimit : option Z) : Prop :=
  resolve moveTime (TimeLimit e) = None /\ resolve playLimit (PlayLimit e) = None.

(** There is a root, and its state is not the given one. *)
Definition root_mismatch (e : MCTS) (h : heap) (state : GameState) : Prop :=
  exists r n, Root e = Some r /\ h !! r = Some n /\ state_eqb (State n) state = false.

(** [c] is the first present child in [cs] whose state equals [state]. *)
Definition first_match (h : heap) (state : GameState) (cs : list (option ref)) (c : ref)
  : Prop :=
  exists i cn,
    cs !! i = Some (Some c) /\ h !! c = Some cn /\ state_eqb (State cn) state = true /\
    forall j c', (j < i)%nat -> cs !! j = Some (Some c') ->
      exists cn', h !! c' = Some cn' /\ state_eqb (State cn') state = false.

(** No present child in [cs] has a state equal to [state]. *)
Definition no_match (h : heap) (state : GameState) (cs : list (option ref)) : Prop :=
  forall c, Some c ∈ cs ->
    exists cn, h !! c = Some cn /\ state_eqb (State cn) state = false.

(** Everything of a node but its two caches. *)
Definition same_but_caches (n n' : Node GameState) : Prop :=
  State n' = State n /\ Value n' = Value n /\ Plays n' = Plays n /\
  LegalActions n' = LegalActions n /\ Children n' = Children n /\
  Parent n' = Parent n /\ Priors n' = Priors n.

(** The store [h'] has the objects of [h], changed in their caches at most. *)
Definition caches_only (h h' : heap) : Prop :=
  length h' = length h /\
  forall r n, h !! r = Some n -> exists n', h' !! r = Some n' /\ same_but_caches n n'.

(** [m] at the index [a] is the first maximum of [xs]. *)
Definition first_max (xs : list Q) (a : nat) (m : Q) : Prop :=
  xs !! a = Some m /\
  (forall k y, xs !! k = Some y -> y <= m) /\
  (forall k y, (k < a)%nat -> xs !! k = Some y -> y < m).

End Notions.

(** ** A small game and a few stores for the examples *)

(** States are numbered; the player to move is the parity of the number;
    even states allow the actions 0 and 1, odd states the actions 1 and 2. *)
#[export] Instance toy_state : StateOps nat bool := {|
  state_eqb := Nat.eqb;
  player_eqb := Bool.eqb;
  Player := fun s => Some (Nat.even s)
|}.

#[export] Instance toy_game : Extension nat := {|
  MCTS_LegalActions := fun s =>
    if Nat.even s then [true; true; false] else [false; true; true];
  MCTS_GetPriors := fun s =>
    if Nat.even s then [3 # 5; 2 # 5; 0] else [0; 1 # 2; 1 # 2];
  MCTS_ApplyAction := fun s a => Ok (3 * s + a + 1)%nat;
  MCTS_RunSimulation := fun _ h root => BackProp 64 h root (1 # 2) true
|}.

#[export] Instance toy_oracle : Oracle := {|
  time_time := fun k => Qnat k;
  random_choice := fun _ _ => Ok 0%nat
|}.

(** A node as [Node.__init__] leaves its caches, with the other attributes
    given. *)
Definition toy_node (state : nat) (value : Q) (plays : nat) (legal : list bool)
    (children : option (list (option ref))) (parent : option ref) (priors : list Q)
  : Node nat :=
  mkNode state value plays legal children parent priors
         (replicate (length legal) 0) (replicate (length legal) 0%nat).

Definition even_legal : list bool := [true; true; false].
Definition even_priors : list Q := [3 # 5; 2 # 5; 0].
Definition odd_legal : list bool := [false; true; true].
Definition odd_priors : list Q := [0; 1 # 2; 1 # 2].

(** A root expanded one ply deep: legal actions [[1,1,0]], priors
    [[0.6,0.4,0.0]], children with [Plays] 10 and 10 and [Value] 8 and 2. *)
Definition one_ply : list (Node nat) :=
  [ toy_node 0 10 20 even_legal (Some [Some 1; Some 2; None])%nat None even_priors;
    toy_node 1 8 10 odd_legal (Some []) (Some 0%nat) odd_priors;
    toy_node 2 2 10 even_legal (Some []) (Some 0%nat) even_priors ].

(** A root whose first action is illegal and whose children never won. *)
Definition lost_ply : list (Node nat) :=
  [ toy_node 1 0 10 odd_legal (Some [None; Some 1; Some 2])%nat None odd_priors;
    toy_node 5 0 5 odd_legal (Some []) (Some 0%nat) odd_priors;
    toy_node 6 0 5 even_legal (Some []) (Some 0%nat) even_priors ].

(** A node that was visited once and never expanded. *)
Definition visited_leaf : list (Node nat) :=
  [ toy_node 0 0 1 [true; true] (Some []) None [1 # 2; 1 # 2] ].

(** The store after [Node(0, [1,0], [1,0])]. *)
Definition fresh_store : list (Node nat) :=
  match Node_init 0%nat [true; false] [1; 0] with
  | Ok n => [n]
  | _ => []
  end.

(** A path of three nodes, and a sibling off the path. *)
Definition family : list (Node nat) :=
  [ toy_node 0 0 3 even_legal (Some [Some 1; Some 3; None])%nat None even_priors;
    toy_node 1 1 2 odd_legal (Some [None; Some 2; None])%nat (Some 0%nat) odd_priors;
    toy_node 2 1 1 even_legal (Some []) (Some 1%nat) even_priors;
    toy_node 3 0 1 even_legal (Some []) (Some 0%nat) even_priors ].

(** A new root and two worker roots that were never expanded, with [Plays]
    3 and 5 and [Value] 1.0 and 2.0. *)
Definition two_leaves : list (Node nat) :=
  [ toy_node 0 0 0 even_legal (Some []) None even_priors;
    toy_node 0 1 3 even_legal (Some []) None even_priors;
    toy_node 0 2 5 even_legal (Some []) None even_priors ].

(** A target (object 0) and two expanded worker trees for the same state:
    worker A is the objects 1, 2, 3 and the grandchild 7, worker B the
    objects 4, 5, 6 and the grandchild 8. *)
Definition workers (target_children : option (list (option ref))) : list (Node nat) :=
  [ toy_node 0 0 0 even_legal target_children None even_priors;
    toy_node 0 2 4 even_legal (Some [Some 2; Some 3; None])%nat None even_priors;
    toy_node 1 2 3 odd_legal (Some [None; Some 7; None])%nat (Some 1%nat) odd_priors;
    toy_node 2 0 1 even_legal (Some []) (Some 1%nat) even_priors;
    toy_node 0 3 6 even_legal (Some [Some 5; Some 6; None])%nat None even_priors;
    toy_node 1 1 4 odd_legal (Some [None; Some 8; None])%nat (Some 4%nat) odd_priors;
    toy_node 2 2 2 even_legal (Some []) (Some 4%nat) even_priors;
    toy_node 5 1 1 odd_legal (Some []) (Some 2%nat) odd_priors;
    toy_node 5 0 2 odd_legal (Some []) (Some 5%nat) odd_priors ].

Definition worker_level (r : ref) : nat :=
  match r with
  | 0 | 1 | 4 => 0
  | 2 | 3 | 5 | 6 => 1
  | _ => 2
  end%nat.

(** An engine with one thread, a play limit of 20 and the object 0 as root. *)
Definition primed : MCTS := mkMCTS None (Some 20%Z) 1 (Some 0%nat) 1 None.

(** ** The rest of the root lifecycle, and notions for it *)

(** The attributes of the engine that are settings. *)
Definition same_settings (e e' : MCTS) : Prop :=
  TimeLimit e' = TimeLimit e /\ PlayLimit e' = PlayLimit e /\
  ExplorationRate e' = ExplorationRate e /\ Threads e' = Threads e /\
  Pool e' = Pool e.

Section Lifecycle.

Context {GameState : Type}.

Abbreviation heap := (list (Node GameState)).

(** *** [MCTS.ResetRoot]

    The [while] loop: as long as the root has a parent, the parent becomes
    the root. *)
Fixpoint ResetRoot_loop (fuel : nat) (h : heap) (e : MCTS) : result MCTS :=
  match fuel with
  | O => OutOfFuel
  | S fuel' =>
      match Root e with
      | None => Raise AttributeError
      | Some r =>
          n <- get h r ;;
          match Parent n with
          | None => Ok e
          | Some p => ResetRoot_loop fuel' h (set_Root (Some p) e)
          end
      end
  end.

Definition ResetRoot (fuel : nat) (h : heap) (e : MCTS) : result MCTS :=
  match Root e with
  | None => Ok e
  | Some _ => ResetRoot_loop fuel h e
  end.

(** [r'] is [r] or an object below it, through the child slots. *)
Inductive descends (h : heap) : ref -> ref -> Prop :=
| descends_here r : descends h r r
| descends_child r n cs c r' :
    h !! r = Some n -> Children n = Some cs -> Some c ∈ cs ->
    descends h c r' -> descends h r r'.

(** The statistics of a node whose visits were each worth between 0 and 1. *)
Definition value_bounded (n : Node GameState) : Prop :=
  0 <= Value n /\ Value n <= Qnat (Plays n).

(** Everything of a node but its children. *)
Definition same_but_children (n n' : Node GameState) : Prop :=
  State n' = State n /\ Value n' = Value n /\ Plays n' = Plays n /\
  LegalActions n' = LegalActions n /\ Parent n' = Parent n /\
  Priors n' = Priors n /\ _childWinRates n' = _childWinRates n /\
  _childPlays n' = _childPlays n.

(** What the loop of [ChildWinRates] leaves in the cache [old] of a node
    with the child slots [cs], after the indices below [j]: the win rate of
    the child where there is one, the old entry elsewhere. *)
Definition refreshed_rates (h : heap) (cs : list (option ref)) (j : nat) (old : list Q)
  : list Q :=
  imap (fun i x =>
          if Nat.ltb i j then
            match cs !! i with
            | Some (Some c) => match h !! c with
                               | Some cn => WinRate cn
                               | None => x
                               end
            | _ => x
            end
          else x) old.

(** The same for [ChildPlays]. *)
Definition refreshed_plays (h : heap) (cs : list (option ref)) (j : nat) (old : list nat)
  : list nat :=
  imap (fun i x =>
          if Nat.ltb i j then
            match cs !! i with
            | Some (Some c) => match h !! c with
                               | Some cn => Plays cn
                               | None => x
                               end
            | _ => x
            end
          else x) old.

(** The vector the greedy selection takes the [argmax] of. *)
Definition masked_rates (n : Node GameState) : list Q :=
  zip_with Qmult (_childWinRates n) (map mask (LegalActions n)).

End Lifecycle.

(** A second reading of the toy states, in which the state 0 has no
    [Player] attribute. *)
Definition partial_state : StateOps nat bool := {|
  state_eqb := Nat.eqb;
  player_eqb := Bool.eqb;
  Player := fun s => if Nat.eqb s 0 then None else Some (Nat.even s)
|}.

(** An engine with two threads and its pool, and no root yet. *)
Definition pooled : MCTS := MCTS_init 1 None (Some 3%Z) 2.

(** * Facts *)

Section Facts.

Context {GameState PlayerId : Type} `{!StateOps GameState PlayerId}.

Abbreviation heap := (list (Node GameState)).

Implicit Types (h hx hc : heap) (n m tg : Node GameState).

(** ** The error monad and the loops *)

Lemma bind_Ok {A B : Type} (m : result A) (k : A -> result B) (b : B) :
  bind m k = Ok b -> exists a, m = Ok a /\ k a = Ok b.
Proof. destruct m; simpl; [eauto | discriminate | discriminate]. Qed.

Lemma for_each_invariant {A S : Type} (P : S -> Prop) (body : S -> A -> result S) xs :
  forall s s',
    (forall s x s', x ∈ xs -> P s -> body s x = Ok s' -> P s') ->
    P s -> for_each body xs s = Ok s' -> P s'.
Proof.
  induction xs as [|x xs IH]; intros s s' Hstep Hs Hrun; simpl in Hrun.
  - now inversion Hrun; subst.
  - apply bind_Ok in Hrun as (s1 & Hx & Hrun).
    apply (IH s1 s'); [| |exact Hrun].
    + intros s0 y s0' Hy. apply Hstep. now apply list_elem_of_further.
    + eapply Hstep; [apply list_elem_of_here | exact Hs | exact Hx].
Qed.

Lemma halts_bind {A B : Type} (m : result A) (k : A -> result B) :
  halts m -> (forall a, m = Ok a -> halts (k a)) -> halts (bind m k).
Proof. unfold halts. destruct m; simpl; [eauto | discriminate | congruence]. Qed.

Lemma halts_for_each {A S : Type} (P : S -> Prop) (body : S -> A -> result S) xs :
  forall s,
    P s ->
    (forall s x, x ∈ xs -> P s -> halts (body s x)) ->
    (forall s x s', x ∈ xs -> P s -> body s x = Ok s' -> P s') ->
    halts (for_each body xs s).
Proof.
  induction xs as [|x xs IH]; intros s Hs Hh Hp; simpl; [discriminate|].
  apply halts_bind; [apply Hh; [apply list_elem_of_here | exact Hs]|].
  intros s1 Hs1. apply IH.
  - eapply Hp; [apply list_elem_of_here | exact Hs | exact Hs1].
  - intros s0 y Hy. apply Hh. now apply list_elem_of_further.
  - intros s0 y s0' Hy. apply Hp. now apply list_elem_of_further.
Qed.

Lemma halts_simple_loop {A S : Type} (body : S -> A -> result S) xs s :
  (forall s x, halts (body s x)) -> halts (for_each body xs s).
Proof.
  intros Hb. apply (halts_for_each (fun _ => True)); auto.
Qed.

(** ** The store *)

Lemma get_Ok h r n : h !! r = Some n -> get h r = Ok n.
Proof. unfold get. now intros ->. Qed.

Lemma get_inv h r n : get h r = Ok n -> h !! r = Some n.
Proof. unfold get. destruct (h !! r); now inversion 1. Qed.

Lemma update_inv h r f h' :
  update h r f = Ok h' -> exists n, h !! r = Some n /\ h' = <[r := f n]> h.
Proof.
  unfold update. intros H. apply bind_Ok in H as (n & Hn & H).
  apply get_inv in Hn. inversion H. eauto.
Qed.

Lemma child_at_inv n i c :
  child_at n i = Ok c -> exists cs, Children n = Some cs /\ cs !! i = Some c.
Proof.
  unfold child_at. destruct (Children n) as [cs|]; [|discriminate].
  destruct (cs !! i) as [c'|] eqn:E; [|discriminate]. inversion 1; subst. eauto.
Qed.

Lemma halts_get h r : halts (get h r).
Proof. unfold halts, get. destruct (h !! r); discriminate. Qed.

Lemma halts_update h r f : halts (update h r f).
Proof. unfold update. apply halts_bind; [apply halts_get | discriminate]. Qed.

Lemma halts_child_at n i : halts (child_at n i).
Proof.
  unfold halts, child_at. destruct (Children n) as [cs|]; [|discriminate].
  destruct (cs !! i); discriminate.
Qed.

Lemma halts_children_len n : halts (children_len n).
Proof. unfold halts, children_len. destruct (Children n); discriminate. Qed.

Lemma stats_at_insert_ne h r m x : x <> r -> stats_at (<[r := m]> h) x = stats_at h x.
Proof. intros Hx. unfold stats_at. rewrite list_lookup_insert_ne; [done | congruence]. Qed.

Lemma stats_at_insert_same h r n m x :
  h !! r = Some n -> Plays m = Plays n -> Value m = Value n ->
  stats_at (<[r := m]> h) x = stats_at h x.
Proof.
  intros Hr Hp Hv. destruct (decide (x = r)) as [-> | Hx].
  - unfold stats_at. rewrite list_lookup_insert_eq by (eapply lookup_lt_Some; eauto).
    rewrite Hr. simpl. now rewrite Hp, Hv.
  - now apply stats_at_insert_ne.
Qed.

(** ** The methods of a node write to the caches only *)

Lemma same_but_caches_refl n : same_but_caches n n.
Proof. unfold same_but_caches. tauto. Qed.

Lemma caches_only_refl h : caches_only h h.
Proof. split; [done|]. intros r n Hr. exists n. split; [done | apply same_but_caches_refl]. Qed.

Lemma caches_only_trans h1 h2 h3 :
  caches_only h1 h2 -> caches_only h2 h3 -> caches_only h1 h3.
Proof.
  intros [L1 C1] [L2 C2]. split; [congruence|].
  intros r n Hr. destruct (C1 _ _ Hr) as (n2 & Hn2 & S2).
  destruct (C2 _ _ Hn2) as (n3 & Hn3 & S3). exists n3. split; [exact Hn3|].
  unfold same_but_caches in *. intuition congruence.
Qed.

Lemma caches_only_insert h r n m :
  h !! r = Some n -> same_but_caches n m -> caches_only h (<[r := m]> h).
Proof.
  intros Hr Hs. split; [apply length_insert|].
  intros x nx Hx. destruct (decide (x = r)) as [-> | Hne].
  - assert (nx = n) by congruence. subst nx. exists m. split; [|exact Hs].
    apply list_lookup_insert_eq. eapply lookup_lt_Some; eauto.
  - exists nx. split; [|apply same_but_caches_refl].
    rewrite list_lookup_insert_ne; [done | congruence].
Qed.

Lemma ChildWinRates_caches_only h r h' :
  ChildWinRates h r = Ok h' -> caches_only h h'.
Proof.
  unfold ChildWinRates. intros Hrun.
  apply bind_Ok in Hrun as (n & _ & Hrun). apply bind_Ok in Hrun as (len & _ & Hrun).
  revert Hrun. apply (for_each_invariant (caches_only h)); [|apply caches_only_refl].
  intros hx i hx' _ Hx Hstep. unfold ChildWinRates_step in Hstep.
  apply bind_Ok in Hstep as (nx & Hnx & Hstep). apply get_inv in Hnx.
  apply bind_Ok in Hstep as (c & _ & Hstep).
  destruct c as [cr|]; [|inversion Hstep; now subst].
  apply bind_Ok in Hstep as (cn & _ & Hstep). apply bind_Ok in Hstep as (w & _ & Hstep).
  apply update_inv in Hstep as (n0 & Hn0 & ->).
  eapply caches_only_trans; [exact Hx|].
  eapply caches_only_insert; [exact Hn0|]. unfold same_but_caches. simpl. tauto.
Qed.

Lemma ChildPlays_caches_only h r h' :
  ChildPlays h r = Ok h' -> caches_only h h'.
Proof.
  unfold ChildPlays. intros Hrun.
  apply bind_Ok in Hrun as (n & _ & Hrun). apply bind_Ok in Hrun as (len & _ & Hrun).
  revert Hrun. apply (for_each_invariant (caches_only h)); [|apply caches_only_refl].
  intros hx i hx' _ Hx Hstep. unfold ChildPlays_step in Hstep.
  apply bind_Ok in Hstep as (nx & Hnx & Hstep). apply get_inv in Hnx.
  apply bind_Ok in Hstep as (c & _ & Hstep).
  destruct c as [cr|]; [|inversion Hstep; now subst].
  apply bind_Ok in Hstep as (cn & _ & Hstep). apply bind_Ok in Hstep as (w & _ & Hstep).
  apply update_inv in Hstep as (n0 & Hn0 & ->).
  eapply caches_only_trans; [exact Hx|].
  eapply caches_only_insert; [exact Hn0|]. unfold same_but_caches. simpl. tauto.
Qed.

(** X22, the part of C8 that holds on every store: a call of
    [ChildProbability] changes no [Value], [Plays], [Priors],
    [LegalActions], [State], [Children] or [Parent], at the node or anywhere
    else, and creates no object. *)
Lemma ChildProbability_caches_only h r f h' probs :
  ChildProbability h r f = Ok (h', probs) -> caches_only h h'.
Proof.
  unfold ChildProbability. intros Hrun.
  apply bind_Ok in Hrun as (h1 & H1 & Hrun). apply ChildWinRates_caches_only in H1.
  apply bind_Ok in Hrun as (h2 & H2 & Hrun). apply ChildPlays_caches_only in H2.
  apply bind_Ok in Hrun as (n & _ & Hrun). apply bind_Ok in Hrun as (bs & _ & Hrun).
  apply bind_Ok in Hrun as (rates & _ & Hrun). apply bind_Ok in Hrun as (h3 & H3 & Hrun).
  apply bind_Ok in Hrun as (ps & _ & Hrun). inversion Hrun; subst h3 ps.
  apply update_inv in H3 as (n0 & Hn0 & ->).
  eapply caches_only_trans; [exact H1|]. eapply caches_only_trans; [exact H2|].
  eapply caches_only_insert; [exact Hn0|]. unfold same_but_caches. simpl. tauto.
Qed.

(** ** The selection probabilities when the rates do not sum to zero *)

Lemma np_zip_Ok {A B C : Type} (f : A -> B -> C) (a : list A) (b : list B) c :
  np_zip f a b = Ok c -> length a = length b /\ c = zip_with f a b.
Proof.
  unfold np_zip. destruct (Nat.eqb (length a) (length b)) eqn:E; [|discriminate].
  apply Nat.eqb_eq in E. inversion 1. now split.
Qed.

Lemma fold_left_Qplus_sum (l : list Q) :
  forall a, fold_left Qplus l a == a + Qsum l.
Proof.
  unfold Qsum. induction l as [|x l IH]; intros a; simpl.
  - ring.
  - rewrite (IH (a + x)), (IH (0 + x)). ring.
Qed.

Lemma Qsum_cons (x : Q) (l : list Q) : Qsum (x :: l) == x + Qsum l.
Proof.
  unfold Qsum at 1. simpl. rewrite fold_left_Qplus_sum. ring.
Qed.

Lemma Qis_zero_false (s : Q) : ~ s == 0 -> Qis_zero s = false.
Proof.
  intros Hs. unfold Qis_zero. destruct (Qeq_bool s 0) eqn:E; [|reflexivity].
  apply Qeq_bool_iff in E. contradiction.
Qed.

Lemma legal_total_scaled (s : Q) (rates : list Q) :
  ~ s == 0 ->
  forall legal,
    length rates = length legal ->
    (forall i x, legal !! i = Some false -> rates !! i = Some x -> x == 0) ->
    exists t,
      legal_total (zip_with np_mul (map (fun x => np_div x s) rates) (map mask legal))
                  legal = Some t /\
      t == Qsum rates / s.
Proof.
  intros Hs. induction rates as [|x rates IH]; intros legal Hlen Hzero.
  - destruct legal; [|discriminate]. simpl. exists 0. split; [reflexivity|].
    unfold Qsum. simpl. field. exact Hs.
  - destruct legal as [|b legal]; [discriminate|]. simpl in Hlen.
    destruct (IH legal) as (t & Ht & Et); [lia | |].
    { intros i y Hi Hy. apply (Hzero (S i) y); assumption. }
    cbn [map zip_with legal_total]. rewrite Ht.
    unfold np_div. rewrite (Qis_zero_false s Hs). cbn [np_mul].
    destruct b; cbn [mask].
    + eexists. split; [reflexivity|]. rewrite Et, Qsum_cons. field. exact Hs.
    + exists t. split; [reflexivity|].
      assert (Hx : x == 0) by (apply (Hzero 0%nat x); reflexivity).
      rewrite Et, Qsum_cons, Hx. field. exact Hs.
Qed.

Lemma normalised_illegal_zero (rates : list Q) (legal : list bool) i :
  ~ Qsum rates == 0 ->
  length rates = length legal ->
  legal !! i = Some false ->
  exists q, normalised rates legal !! i = Some (Fin q) /\ q == 0.
Proof.
  intros Hs Hlen Hi. unfold normalised.
  assert (Hlt : (i < length rates)%nat) by (rewrite Hlen; eapply lookup_lt_Some; eauto).
  destruct (lookup_lt_is_Some_2 rates i Hlt) as [x Hx].
  exists (x / Qsum rates * 0). split; [|ring].
  rewrite lookup_zip_with.
  rewrite (list_lookup_fmap _ rates), Hx. simpl.
  rewrite (list_lookup_fmap _ legal), Hi. simpl.
  unfold np_div. now rewrite (Qis_zero_false _ Hs).
Qed.

(** X23, the part of C4 that holds.  When the rates, which the call leaves
    in [_childWinRates], do not sum to zero and are zero at the illegal
    indices, the vector that [ChildProbability] returns sums to 1 over the
    legal indices and is 0 at every illegal index. *)
Lemma ChildProbability_distribution h r f h' probs :
  ChildProbability h r f = Ok (h', probs) ->
  exists n',
    h' !! r = Some n' /\
    probs = normalised (_childWinRates n') (LegalActions n') /\
    (~ Qsum (_childWinRates n') == 0 ->
     (forall i x, LegalActions n' !! i = Some false ->
                  _childWinRates n' !! i = Some x -> x == 0) ->
     (exists t, legal_total probs (LegalActions n') = Some t /\ t == 1) /\
     (forall i, LegalActions n' !! i = Some false ->
                exists q, probs !! i = Some (Fin q) /\ q == 0)).
Proof.
  unfold ChildProbability. intros Hrun.
  apply bind_Ok in Hrun as (h1 & _ & Hrun). apply bind_Ok in Hrun as (h2 & _ & Hrun).
  apply bind_Ok in Hrun as (n & Hn & Hrun). apply bind_Ok in Hrun as (bs & _ & Hrun).
  apply bind_Ok in Hrun as (rates & _ & Hrun). apply bind_Ok in Hrun as (h3 & H3 & Hrun).
  apply bind_Ok in Hrun as (ps & Hps & Hrun). inversion Hrun; subst h3 ps.
  apply update_inv in H3 as (n0 & Hn0 & ->).
  apply get_inv in Hn. assert (n0 = n) by congruence. subst n0.
  apply np_zip_Ok in Hps as [Hlen ->]. rewrite !length_map in Hlen.
  exists (set_childWinRates rates n). split.
  { apply list_lookup_insert_eq. eapply lookup_lt_Some; eauto. }
  split; [reflexivity|]. simpl. intros Hs Hzero. split.
  - destruct (legal_total_scaled (Qsum rates) rates Hs (LegalActions n) Hlen Hzero)
      as (t & Ht & Et).
    exists t. split; [exact Ht|]. rewrite Et. field. exact Hs.
  - intros i Hi. now apply normalised_illegal_zero.
Qed.

(** ** [np.argmax] returns the first maximum *)

Lemma argmax_from_first_max xs :
  forall pre best besti,
    first_max pre besti best ->
    exists mx, first_max (pre ++ xs) (argmax_from best besti (length pre) xs) mx.
Proof.
  induction xs as [|x xs IH]; intros pre best besti (Hb & Hmax & Hfirst); simpl.
  - exists best. rewrite app_nil_r. now repeat split.
  - replace (pre ++ x :: xs) with ((pre ++ [x]) ++ xs) by now rewrite <- app_assoc.
    replace (S (length pre)) with (length (pre ++ [x]))
      by (rewrite length_app; simpl; lia).
    pose proof (lookup_lt_Some _ _ _ Hb) as Hlt.
    destruct (Qle_bool x best) eqn:Hle.
    + apply Qle_bool_iff in Hle. apply IH. split; [|split].
      * now rewrite lookup_app_l.
      * intros k y Hk. apply lookup_app_Some in Hk as [Hk | [_ Hk]]; [eauto|].
        apply list_lookup_singleton_Some in Hk as [_ <-]. exact Hle.
      * intros k y Hk Hy. rewrite lookup_app_l in Hy by lia. eauto.
    + assert (Hgt : best < x).
      { apply Qnot_le_lt. intros Hc. apply Qle_bool_iff in Hc. congruence. }
      apply IH. split; [|split].
      * now rewrite list_lookup_middle.
      * intros k y Hk. apply lookup_app_Some in Hk as [Hk | [_ Hk]].
        -- apply Qlt_le_weak. eapply Qle_lt_trans; [eapply Hmax; eauto | exact Hgt].
        -- apply list_lookup_singleton_Some in Hk as [_ <-]. apply Qle_refl.
      * intros k y Hk Hy. rewrite lookup_app_l in Hy by exact Hk.
        eapply Qle_lt_trans; [eapply Hmax; eauto | exact Hgt].
Qed.

(** The part of C5 that holds: what [np.argmax] returns is the first index
    at which the vector takes its maximum. *)
Lemma np_argmax_first_max xs a :
  np_argmax xs = Ok a -> exists mx, first_max xs a mx.
Proof.
  destruct xs as [|x xs]; [discriminate|]. simpl. intros Ha. inversion Ha; subst a.
  apply (argmax_from_first_max xs [x] x 0%nat).
  split; [reflexivity|]. split.
  - intros k y Hk. apply list_lookup_singleton_Some in Hk as [_ <-]. apply Qle_refl.
  - intros k y Hk. lia.
Qed.

(** ** Backpropagation along the parent chain *)

Lemma chain_head h r path : chain h r path -> exists tl, path = r :: tl.
Proof. destruct 1; eauto. Qed.

Lemma chain_unique h r p1 :
  chain h r p1 -> forall p2, chain h r p2 -> p1 = p2.
Proof.
  induction 1 as [r n Hr Hp | r n p path Hr Hp Hc IH]; intros p2 H2.
  - inversion H2; subst; [reflexivity | congruence].
  - inversion H2 as [r' n' Hr' Hp' | r' n' p' path' Hr' Hp' Hc']; subst.
    + congruence.
    + assert (p' = p) by congruence. subst p'. f_equal. now apply IH.
Qed.

Lemma chain_suffix h r path :
  chain h r path ->
  forall x, x ∈ path -> exists sfx, chain h x sfx /\ (length sfx <= length path)%nat.
Proof.
  induction 1 as [r n Hr Hp | r n p path Hr Hp Hc IH]; intros x Hx.
  - apply list_elem_of_singleton in Hx. subst x. exists [r]. split; [|done].
    econstructor; eauto.
  - apply elem_of_cons in Hx as [-> | Hx].
    + exists (r :: path). split; [|done]. econstructor; eauto.
    + destruct (IH x Hx) as (sfx & Hs & Hl). exists sfx. split; [done|]. simpl. lia.
Qed.

Lemma chain_NoDup h r path : chain h r path -> NoDup path.
Proof.
  induction 1 as [r n Hr Hp | r n p path Hr Hp Hc IH].
  - apply NoDup_singleton.
  - constructor; [|done]. intros Hin.
    destruct (chain_suffix _ _ _ Hc r Hin) as (sfx & Hs & Hl).
    assert (Hfull : chain h r (r :: path)) by (econstructor; eauto).
    pose proof (chain_unique _ _ _ Hs _ Hfull) as ->. simpl in Hl. lia.
Qed.

Lemma chain_agree h h2 r path :
  chain h r path -> (forall x, x ∈ path -> h2 !! x = h !! x) -> chain h2 r path.
Proof.
  induction 1 as [r n Hr Hp | r n p path Hr Hp Hc IH]; intros Hag.
  - eapply chain_top; [|exact Hp]. rewrite Hag; [done | apply list_elem_of_here].
  - eapply chain_up; [| exact Hp |].
    + rewrite Hag; [done | apply list_elem_of_here].
    + apply IH. intros x Hx. apply Hag. now apply list_elem_of_further.
Qed.

Lemma BackProp_chain path :
  forall fuel h leaf stateValue playerForValue,
    chain h leaf path ->
    Forall (has_player h) (tail path) ->
    (length path <= fuel)%nat ->
    exists h',
      BackProp fuel h leaf stateValue playerForValue = Ok h' /\
      length h' = length h /\
      (forall r, r ∉ path -> h' !! r = h !! r) /\
      (forall r n, r ∈ path -> h !! r = Some n ->
         exists n', h' !! r = Some n' /\ backed_up h stateValue playerForValue n n').
Proof.
  induction path as [|x tl IH]; intros fuel h leaf sv pfv Hc Hpl Hfuel.
  { apply chain_head in Hc as [? ?]. discriminate. }
  pose proof (chain_NoDup _ _ _ Hc) as Hnd.
  destruct fuel as [|fuel]; [simpl in Hfuel; lia|].
  destruct (chain_head _ _ _ Hc) as [tl0 E]. injection E as -> <-.
  inversion Hc as [r n Hr Hp | r n p path' Hr Hp Hc']; subst r; try subst path'.
  - (* the topmost node *)
    simpl. rewrite (get_Ok _ _ _ Hr). simpl. rewrite Hp.
    pose proof (lookup_lt_Some _ _ _ Hr) as Hlt.
    eexists. split; [reflexivity|]. split; [apply length_insert|]. split.
    + intros r Hn. apply list_lookup_insert_ne. intros ->. apply Hn, list_elem_of_here.
    + intros r n0 Hin Hr0. apply list_elem_of_singleton in Hin. subst r.
      assert (n0 = n) by congruence. subst n0.
      eexists. split; [apply list_lookup_insert_eq; exact Hlt|].
      unfold backed_up, same_shape. rewrite Hp. simpl. tauto.
  - (* a node below its parent [p] *)
    apply NoDup_cons in Hnd as [Hnotin Hnd'].
    destruct (chain_head _ _ _ Hc') as [tl' ->].
    simpl in Hpl. pose proof (Forall_inv Hpl) as (pn & Hpn & pl & Hplayer).
    assert (Hne : leaf <> p) by (intros ->; apply Hnotin, list_elem_of_here).
    pose proof (lookup_lt_Some _ _ _ Hr) as Hlt.
    simpl. rewrite (get_Ok _ _ _ Hr). simpl. rewrite Hp.
    unfold get at 1. rewrite list_lookup_insert_ne by exact Hne. rewrite Hpn. simpl.
    rewrite Hplayer.
    unfold get at 1. rewrite list_lookup_insert_eq by exact Hlt. simpl.
    set (v := if player_eqb pl pfv then Value n + sv else Value n + (1 - sv)).
    set (n2 := set_Value v (set_Plays (Plays n + 1) n)).
    rewrite list_insert_insert_eq.
    assert (Hag : forall y, y <> leaf -> <[leaf := n2]> h !! y = h !! y).
    { intros y Hy. apply list_lookup_insert_ne. congruence. }
    assert (Hin_ne : forall y, y ∈ p :: tl' -> y <> leaf).
    { intros y Hy ->. now apply Hnotin. }
    destruct (IH fuel (<[leaf := n2]> h) p sv pfv) as (h' & Hrun & Hlen & Hoff & Hon).
    + eapply chain_agree; [exact Hc'|]. intros y Hy. apply Hag, Hin_ne, Hy.
    + apply Forall_forall. intros y Hy.
      pose proof (proj1 (Forall_forall _ _) Hpl y) as Hy'.
      destruct Hy' as (ny & Hny & Hpy); [now apply list_elem_of_further|].
      exists ny. split; [|exact Hpy]. rewrite Hag; [exact Hny|].
      apply Hin_ne. now apply list_elem_of_further.
    + simpl in Hfuel. simpl. lia.
    + exists h'. split; [exact Hrun|]. split; [now rewrite Hlen, length_insert|]. split.
      * intros r Hn. rewrite Hoff.
        -- apply Hag. intros ->. apply Hn, list_elem_of_here.
        -- intros Hr'. apply Hn. now apply list_elem_of_further.
      * intros r n0 Hin Hr0. apply elem_of_cons in Hin as [-> | Hin].
        -- assert (n0 = n) by congruence. subst n0.
           exists n2. split.
           ++ rewrite Hoff by exact Hnotin. apply list_lookup_insert_eq. exact Hlt.
           ++ unfold backed_up, same_shape. rewrite Hp. simpl.
              split; [reflexivity|]. split; [tauto|].
              exists pn, pl. auto.
        -- destruct (Hon r n0 Hin) as (n' & Hn' & Hplays & Hshape & Hval).
           { rewrite Hag; [exact Hr0 | now apply Hin_ne]. }
           exists n'. split; [exact Hn'|]. split; [exact Hplays|]. split; [exact Hshape|].
           destruct (Parent n0) as [q|]; [|exact Hval].
           destruct Hval as (qn & ql & Hqn & Hql & Hv).
           destruct (decide (q = leaf)) as [-> | Hq].
           ++ rewrite list_lookup_insert_eq in Hqn by exact Hlt.
              inversion Hqn; subst qn. exists n, ql. auto.
           ++ rewrite Hag in Hqn by exact Hq. exists qn, ql. auto.
Qed.

(** ** What [BackProp] does to the path *)

(** C2. [BackProp(leaf, stateValue, playerForValue)] adds one to [Plays] at
    every node of the path from [leaf] to the node without a parent; a node
    of the path that has a parent gains [stateValue] when the player of the
    parent's state equals [playerForValue] and [1 - stateValue] otherwise;
    the [Value] of the topmost node stays, no other attribute of a node on
    the path changes, and no object off the path changes.  With fuel for the
    length of the path the call returns. *)
Theorem BackProp_path fuel h leaf path stateValue playerForValue :
  chain h leaf path ->
  Forall (has_player h) (tail path) ->
  (length path <= fuel)%nat ->
  exists h',
    BackProp fuel h leaf stateValue playerForValue = Ok h' /\
    (forall r, r ∉ path -> h' !! r = h !! r) /\
    (forall r n, r ∈ path -> h !! r = Some n ->
       exists n',
         h' !! r = Some n' /\ Plays n' = (Plays n + 1)%nat /\ same_shape n n' /\
         match Parent n with
         | None => Value n' = Value n
         | Some p =>
             exists pn pl,
               h !! p = Some pn /\ Player (State pn) = Some pl /\
               Value n' = (if player_eqb pl playerForValue
                           then Value n + stateValue
                           else Value n + (1 - stateValue))
         end).
Proof.
  intros Hc Hpl Hfuel.
  destruct (BackProp_chain path fuel h leaf stateValue playerForValue Hc Hpl Hfuel)
    as (h' & Hrun & _ & Hoff & Hon).
  exists h'. split; [exact Hrun|]. split; [exact Hoff|].
  intros r n Hin Hr. destruct (Hon r n Hin Hr) as (n' & Hn' & Hp & Hs & Hv).
  exists n'. auto.
Qed.

(** ** Merging worker trees: what the recursion can and cannot touch *)

Lemma halts_add_stats target h t : halts (add_stats target h t).
Proof.
  unfold add_stats. destruct t as [tr|]; [|discriminate].
  apply halts_bind; [apply halts_get|]. intros tg _.
  apply halts_bind; [apply halts_get|]. intros tn _.
  apply halts_bind; [apply halts_update|]. intros h1 _.
  apply halts_bind; [apply halts_get|]. intros tg1 _.
  apply halts_bind; [apply halts_get|]. intros tn1 _.
  apply halts_update.
Qed.

Lemma halts_continued h trees : halts (continued h trees).
Proof.
  induction trees as [|[tr|] ts IH]; simpl; try discriminate.
  apply halts_bind; [apply halts_get|]. intros tn _.
  apply halts_bind; [exact IH|]. discriminate.
Qed.

Lemma halts_slots_at h i ts : halts (slots_at h i ts).
Proof.
  induction ts as [|t ts IH]; simpl; [discriminate|].
  apply halts_bind; [apply halts_get|]. intros tn _.
  apply halts_bind; [apply halts_child_at|]. intros c _.
  apply halts_bind; [exact IH|]. discriminate.
Qed.

Lemma halts_reparent target h c : halts (reparent target h c).
Proof. destruct c; simpl; [apply halts_update | discriminate]. Qed.

Lemma halts_merge_head h target trees : halts (merge_head h target trees).
Proof.
  unfold merge_head.
  apply halts_bind; [apply halts_simple_loop, halts_add_stats|]. intros h1 _.
  apply halts_bind; [apply halts_continued|]. intros [|t rest] _; [discriminate|].
  apply halts_bind; [apply halts_get|]. intros tg _.
  destruct (Children tg); [discriminate|].
  apply halts_bind; [apply halts_get|]. intros tn _.
  apply halts_bind; [apply halts_update|]. intros h2 _.
  apply halts_bind; [apply halts_update|]. intros h3 _.
  apply halts_bind; [apply halts_get|]. intros tg3 _.
  apply halts_bind; [destruct (Children tg3); discriminate|]. intros cs _.
  apply halts_bind; [apply halts_simple_loop, halts_reparent|]. discriminate.
Qed.

(** *** The loop that adds the statistics *)

Lemma add_stats_inv target h t h' :
  add_stats target h t = Ok h' ->
  exists tr tg tn,
    t = Some tr /\ h !! target = Some tg /\ h !! tr = Some tn /\
    h' = <[target := set_Value (Value tg + (if decide (tr = target)
                                             then Value tg else Value tn))
                      (set_Plays (Plays tg + Plays tn) tg)]> h.
Proof.
  unfold add_stats. destruct t as [tr|]; [|discriminate]. intros H.
  apply bind_Ok in H as (tg & Htg & H). apply get_inv in Htg.
  apply bind_Ok in H as (tn & Htn & H). apply get_inv in Htn.
  apply bind_Ok in H as (h1 & Hh1 & H).
  apply update_inv in Hh1 as (tg0 & Htg0 & ->).
  assert (tg0 = tg) by congruence. subst tg0.
  pose proof (lookup_lt_Some _ _ _ Htg) as Hlt.
  apply bind_Ok in H as (tg1 & Htg1 & H). apply get_inv in Htg1.
  rewrite list_lookup_insert_eq in Htg1 by exact Hlt. inversion Htg1; subst tg1.
  apply bind_Ok in H as (tn1 & Htn1 & H). apply get_inv in Htn1.
  apply update_inv in H as (tg2 & Htg2 & ->).
  rewrite list_lookup_insert_eq in Htg2 by exact Hlt. inversion Htg2; subst tg2.
  rewrite list_insert_insert_eq.
  exists tr, tg, tn. repeat split; try done.
  destruct (decide (tr = target)) as [-> | Hne].
  - rewrite list_lookup_insert_eq in Htn1 by exact Hlt. inversion Htn1; subst tn1.
    reflexivity.
  - rewrite list_lookup_insert_ne in Htn1 by congruence.
    assert (tn1 = tn) by congruence. subst tn1. reflexivity.
Qed.

Lemma tree_plays_insert_ne h target m t :
  t <> Some target -> tree_plays (<[target := m]> h) t = tree_plays h t.
Proof.
  intros Hne. unfold tree_plays. destruct t as [tr|]; simpl; [|done].
  rewrite list_lookup_insert_ne; [done | congruence].
Qed.

Lemma tree_value_insert_ne h target m t :
  t <> Some target -> tree_value (<[target := m]> h) t = tree_value h t.
Proof.
  intros Hne. unfold tree_value. destruct t as [tr|]; simpl; [|done].
  rewrite list_lookup_insert_ne; [done | congruence].
Qed.

Lemma add_stats_loop_frame target trees :
  forall h h1,
    for_each (add_stats target) trees h = Ok h1 ->
    length h1 = length h /\
    (forall r, r <> target -> h1 !! r = h !! r) /\
    (forall tg, h !! target = Some tg ->
       exists tg1, h1 !! target = Some tg1 /\ same_shape tg tg1).
Proof.
  induction trees as [|t ts IH]; intros h h1 Hrun; simpl in Hrun.
  - inversion Hrun; subst. repeat split; try done.
    intros tg Htg. exists tg. unfold same_shape. tauto.
  - apply bind_Ok in Hrun as (hm & Hstep & Hrun).
    apply add_stats_inv in Hstep as (tr & tg & tn & -> & Htg & Htn & ->).
    destruct (IH _ _ Hrun) as (Hlen & Hoff & Hat).
    pose proof (lookup_lt_Some _ _ _ Htg) as Hlt.
    split; [now rewrite Hlen, length_insert|]. split.
    + intros r Hr. rewrite Hoff by exact Hr. apply list_lookup_insert_ne. congruence.
    + intros tg0 Htg0. assert (tg0 = tg) by congruence. subst tg0.
      edestruct Hat as (tg1 & Htg1 & Hsh); [apply list_lookup_insert_eq; exact Hlt|].
      exists tg1. split; [exact Htg1|]. unfold same_shape in *. simpl in Hsh. tauto.
Qed.

Lemma add_stats_loop_sum target trees :
  forall h h1 tg,
    Some target ∉ trees ->
    h !! target = Some tg ->
    for_each (add_stats target) trees h = Ok h1 ->
    exists tg1,
      h1 !! target = Some tg1 /\
      Plays tg1 = (Plays tg + sum_list (map (tree_plays h) trees))%nat /\
      Value tg1 = fold_left Qplus (map (tree_value h) trees) (Value tg).
Proof.
  induction trees as [|t ts IH]; intros h h1 tg Hnotin Htg Hrun; simpl in Hrun.
  - inversion Hrun; subst. exists tg. simpl. split; [done|]. split; [lia | done].
  - apply bind_Ok in Hrun as (hm & Hstep & Hrun).
    apply add_stats_inv in Hstep as (tr & tg0 & tn & -> & Htg0 & Htn & ->).
    assert (tg0 = tg) by congruence. subst tg0.
    apply not_elem_of_cons in Hnotin as [Hne Hnotin].
    destruct (decide (tr = target)) as [-> | Hne']; [congruence|].
    pose proof (lookup_lt_Some _ _ _ Htg) as Hlt.
    edestruct (IH _ _ _ Hnotin (list_lookup_insert_eq _ _ _ Hlt) Hrun)
      as (tg1 & Htg1 & Hp & Hv).
    exists tg1. split; [exact Htg1|].
    assert (Hmp : map (tree_plays (<[target := set_Value (Value tg + Value tn)
                         (set_Plays (Plays tg + Plays tn) tg)]> h)) ts
                  = map (tree_plays h) ts).
    { apply map_ext_in. intros t Ht. apply tree_plays_insert_ne.
      intros ->. apply Hnotin. now apply list_elem_of_In. }
    assert (Hmv : map (tree_value (<[target := set_Value (Value tg + Value tn)
                         (set_Plays (Plays tg + Plays tn) tg)]> h)) ts
                  = map (tree_value h) ts).
    { apply map_ext_in. intros t Ht. apply tree_value_insert_ne.
      intros ->. apply Hnotin. now apply list_elem_of_In. }
    rewrite Hmp in Hp. rewrite Hmv in Hv.
    assert (Etp : tree_plays h (Some tr) = Plays tn)
      by (unfold tree_plays; simpl; now rewrite Htn).
    assert (Etv : tree_value h (Some tr) = Value tn)
      by (unfold tree_value; simpl; now rewrite Htn).
    cbn [map sum_list fold_left]. rewrite Etp, Etv.
    split; [rewrite Hp; simpl; lia | exact Hv].
Qed.

(** *** Steps that leave statistics and child slots alone *)

Lemma keeps_refl h : keeps h h.
Proof. split; [done|]. intros r n Hr. exists n. tauto. Qed.

Lemma keeps_trans h1 h2 h3 : keeps h1 h2 -> keeps h2 h3 -> keeps h1 h3.
Proof.
  intros [L1 K1] [L2 K2]. split; [congruence|].
  intros r n3 Hn3. destruct (K2 _ _ Hn3) as (n2 & Hn2 & ? & ? & ?).
  destruct (K1 _ _ Hn2) as (n1 & Hn1 & ? & ? & ?).
  exists n1. repeat split; congruence.
Qed.

Lemma keeps_insert h r n m :
  h !! r = Some n -> Children m = Children n -> Plays m = Plays n ->
  Value m = Value n -> keeps h (<[r := m]> h).
Proof.
  intros Hr Hc Hp Hv. split; [apply length_insert|].
  intros x n' Hx.
  apply list_lookup_insert_Some in Hx as [(-> & -> & _) | (Hne & Hx)].
  - exists n. tauto.
  - exists n'. tauto.
Qed.

Lemma keeps_stats h hx r : keeps h hx -> stats_at hx r = stats_at h r.
Proof.
  intros [L K]. unfold stats_at. destruct (hx !! r) as [n'|] eqn:Hx.
  - destruct (K _ _ Hx) as (n & Hn & _ & Hp & Hv). rewrite Hn. simpl. now rewrite Hp, Hv.
  - apply lookup_ge_None in Hx. rewrite L in Hx.
    apply lookup_ge_None in Hx. now rewrite Hx.
Qed.

Lemma reparent_loop_keeps target cs h h' :
  for_each (reparent target) cs h = Ok h' -> keeps h h'.
Proof.
  apply (for_each_invariant (keeps h)); [|apply keeps_refl].
  intros s c s' _ Hs Hstep. destruct c as [cr|]; simpl in Hstep.
  - apply update_inv in Hstep as (n & Hn & ->).
    eapply keeps_trans; [exact Hs|]. eapply keeps_insert; eauto.
  - now inversion Hstep; subst.
Qed.

Lemma same_stats_refl h : same_stats h h.
Proof. now split. Qed.

Lemma same_stats_trans h1 h2 h3 : same_stats h1 h2 -> same_stats h2 h3 -> same_stats h1 h3.
Proof. intros [L1 S1] [L2 S2]. split; [congruence|]. intros r. now rewrite S2. Qed.

Lemma same_stats_insert h r n m :
  h !! r = Some n -> Plays m = Plays n -> Value m = Value n ->
  same_stats h (<[r := m]> h).
Proof.
  intros Hr Hp Hv. split; [apply length_insert|].
  intros x. eapply stats_at_insert_same; eauto.
Qed.

Lemma keeps_same_stats h hx : keeps h hx -> same_stats h hx.
Proof. intros K. split; [apply K|]. intros r. now apply keeps_stats. Qed.

Lemma continued_subset h trees :
  forall conts, continued h trees = Ok conts -> forall c, c ∈ conts -> Some c ∈ trees.
Proof.
  induction trees as [|t ts IH]; intros conts Hc c Hin; simpl in Hc.
  - inversion Hc; subst. now apply elem_of_nil in Hin.
  - destruct t as [tr|]; [|discriminate].
    apply bind_Ok in Hc as (tn & Htn & Hc). apply bind_Ok in Hc as (rest & Hrest & Hc).
    inversion Hc; subst conts. destruct (Children tn).
    + apply elem_of_cons in Hin as [-> | Hin]; [apply list_elem_of_here|].
      apply list_elem_of_further. eapply IH; eauto.
    + apply list_elem_of_further. eapply IH; eauto.
Qed.

(** *** The levels of the forest *)

Section Levels.

Variable level : ref -> nat.

Lemma graded_insert h r m :
  graded level h ->
  (forall cs c, Children m = Some cs -> Some c ∈ cs -> level c = S (level r)) ->
  graded level (<[r := m]> h).
Proof.
  intros Hg Hm x n cs c Hx Hcs Hc.
  apply list_lookup_insert_Some in Hx as [(-> & -> & _) | (Hne & Hx)].
  - eapply Hm; eauto.
  - eapply Hg; eauto.
Qed.

Lemma graded_insert_children h r n m :
  graded level h -> h !! r = Some n -> Children m = Children n -> graded level (<[r := m]> h).
Proof.
  intros Hg Hr Hc. apply graded_insert; [exact Hg|].
  intros cs c Hcs. rewrite Hc in Hcs. eapply Hg; eauto.
Qed.

Lemma keeps_graded h hx : keeps h hx -> graded level h -> graded level hx.
Proof.
  intros [_ K] Hg r n' cs c Hr Hcs Hc.
  destruct (K _ _ Hr) as (n & Hn & Hch & _). rewrite Hch in Hcs. eapply Hg; eauto.
Qed.

Lemma slots_at_level h i ts L :
  graded level h -> (forall t, t ∈ ts -> level t = L) ->
  forall sub, slots_at h i ts = Ok sub -> forall c, Some c ∈ sub -> level c = S L.
Proof.
  intros Hg. induction ts as [|t ts IH]; intros Hl sub Hs c Hin; simpl in Hs.
  - inversion Hs; subst. now apply elem_of_nil in Hin.
  - apply bind_Ok in Hs as (tn & Htn & Hs). apply get_inv in Htn.
    apply bind_Ok in Hs as (c0 & Hc0 & Hs). apply child_at_inv in Hc0 as (cs & Hcs & Hi).
    apply bind_Ok in Hs as (rest & Hrest & Hs). inversion Hs; subst sub.
    apply elem_of_cons in Hin as [<- | Hin].
    + rewrite <- (Hl t (list_elem_of_here _ _)).
      eapply Hg; [exact Htn | exact Hcs |]. eapply list_elem_of_lookup_2. exact Hi.
    + eapply IH; [|exact Hrest|exact Hin].
      intros t' Ht'. apply Hl. now apply list_elem_of_further.
Qed.

Lemma merge_head_frame h target trees hc oc :
  graded level h -> same_level level target trees ->
  merge_head h target trees = Ok (hc, oc) ->
  graded level hc /\ length hc = length h /\
  (forall r, r <> target -> stats_at hc r = stats_at h r) /\
  (exists h1, for_each (add_stats target) trees h = Ok h1 /\
              stats_at hc target = stats_at h1 target) /\
  (forall conts, oc = Some conts -> forall c, c ∈ conts -> level c = level target).
Proof.
  intros Hg Hlv Hrun. unfold merge_head in Hrun.
  apply bind_Ok in Hrun as (h1 & Hadd & Hrun).
  destruct (add_stats_loop_frame _ _ _ _ Hadd) as (Hlen1 & Hoff1 & Hat1).
  assert (Hg1 : graded level h1).
  { intros r n cs c Hr Hcs Hc. destruct (decide (r = target)) as [-> | Hne].
    - destruct (h !! target) as [tg|] eqn:E.
      + destruct (Hat1 _ eq_refl) as (tg1 & Htg1 & Hsh).
        assert (n = tg1) by congruence. subst n.
        destruct Hsh as (_ & _ & Hch & _). rewrite Hch in Hcs. eapply Hg; eauto.
      + apply lookup_ge_None in E. apply lookup_lt_Some in Hr. lia.
    - rewrite Hoff1 in Hr by exact Hne. eapply Hg; eauto. }
  assert (Hst1 : forall r, r <> target -> stats_at h1 r = stats_at h r).
  { intros r Hr. unfold stats_at. now rewrite Hoff1. }
  apply bind_Ok in Hrun as (conts & Hcont & Hrun).
  destruct conts as [|t rest].
  { inversion Hrun; subst hc oc. split; [exact Hg1|]. split; [exact Hlen1|].
    split; [exact Hst1|]. split; [now exists h1 | discriminate]. }
  apply bind_Ok in Hrun as (tg & Htg & Hrun). apply get_inv in Htg.
  assert (Hclv : forall c, c ∈ t :: rest -> level c = level target).
  { intros c Hc. apply Hlv. eapply continued_subset; eauto. }
  destruct (Children tg) as [cs0|] eqn:Hch.
  - inversion Hrun; subst hc oc. split; [exact Hg1|]. split; [exact Hlen1|].
    split; [exact Hst1|]. split; [now exists h1|].
    intros conts' E. inversion E; subst conts'. exact Hclv.
  - apply bind_Ok in Hrun as (tn & Htn & Hrun). apply get_inv in Htn.
    apply bind_Ok in Hrun as (h2 & Hh2 & Hrun).
    apply update_inv in Hh2 as (tg0 & Htg0 & ->).
    apply bind_Ok in Hrun as (h3 & Hh3 & Hrun).
    apply update_inv in Hh3 as (tn2 & Htn2 & ->).
    apply bind_Ok in Hrun as (tg3 & Htg3 & Hrun).
    apply bind_Ok in Hrun as (cs & Hcs & Hrun).
    apply bind_Ok in Hrun as (h4 & Hh4 & Hrun). inversion Hrun; subst hc oc.
    apply reparent_loop_keeps in Hh4.
    assert (Hss : same_stats h1 h4).
    { eapply same_stats_trans; [|apply keeps_same_stats; exact Hh4].
      eapply same_stats_trans; eapply same_stats_insert; eauto. }
    destruct Hss as [Hlss Hsss].
    split; [|split; [congruence|split; [|split]]].
    + eapply keeps_graded; [exact Hh4|].
      apply graded_insert; [|simpl; discriminate].
      apply graded_insert; [exact Hg1|]. simpl. intros cs' c Hcs' Hc.
      rewrite <- (Hclv t (list_elem_of_here _ _)). eapply Hg1; eauto.
    + intros r Hr. rewrite Hsss. now apply Hst1.
    + exists h1. split; [exact Hadd | apply Hsss].
    + intros conts' E. inversion E; subst conts'.
      intros c Hc. apply Hclv. now apply list_elem_of_further.
Qed.

Lemma mergeAll_frame fuel :
  forall h target trees h',
    graded level h -> same_level level target trees ->
    _mergeAll fuel h target trees = Ok h' ->
    graded level h' /\ length h' = length h /\
    (forall r, r <> target -> (level r <= level target)%nat ->
               stats_at h' r = stats_at h r) /\
    exists h1, for_each (add_stats target) trees h = Ok h1 /\
               stats_at h' target = stats_at h1 target.
Proof.
  induction fuel as [|k IH]; intros h target trees h' Hg Hlv Hrun; [discriminate|].
  simpl in Hrun.
  apply bind_Ok in Hrun as ([hc oc] & Hhead & Hrun). simpl in Hrun.
  destruct (merge_head_frame _ _ _ _ _ Hg Hlv Hhead)
    as (Hgc & Hlenc & Hoffc & Hatc & Hlc).
  destruct oc as [conts|].
  2:{ inversion Hrun; subst h'. repeat split; auto. }
  apply bind_Ok in Hrun as (tg' & Htg' & Hrun).
  apply bind_Ok in Hrun as (len & Hlen & Hrun).
  set (P := fun hx : heap =>
              graded level hx /\ length hx = length hc /\
              forall r, (level r <= level target)%nat ->
                        stats_at hx r = stats_at hc r).
  assert (HP : P h').
  { eapply (for_each_invariant P); [| |exact Hrun]; [|now repeat split].
    intros hx i hx' _ (Hgx & Hlx & Hsx) Hstep. unfold merge_slot in Hstep.
    apply bind_Ok in Hstep as (tgx & Htgx & Hstep). apply get_inv in Htgx.
    apply bind_Ok in Hstep as (c & Hc & Hstep).
    apply child_at_inv in Hc as (cs & Hcs & Hi).
    destruct c as [cr|]; [|inversion Hstep; subst; now repeat split].
    apply bind_Ok in Hstep as (sub & Hsub & Hstep).
    assert (Hcr : level cr = S (level target)).
    { eapply Hgx; [exact Htgx | exact Hcs |]. eapply list_elem_of_lookup_2. exact Hi. }
    destruct (IH hx cr sub hx' Hgx) as (Hgx' & Hlx' & Hfr & _); [|exact Hstep|].
    { intros t' Ht'. rewrite Hcr. eapply slots_at_level; eauto. }
    split; [exact Hgx'|]. split; [congruence|].
    intros r Hr. rewrite Hfr; [now apply Hsx | intros ->; lia | lia]. }
  destruct HP as (Hg' & Hl' & Hs').
  split; [exact Hg'|]. split; [congruence|]. split.
  - intros r Hr Hlr. rewrite Hs' by exact Hlr. now apply Hoffc.
  - destruct Hatc as (h1 & Hadd & Hst). exists h1. split; [exact Hadd|].
    rewrite Hs' by lia. exact Hst.
Qed.

(** With as much fuel as the store is deep below the target, the merge
    halts: it returns or raises a Python exception. *)
Lemma mergeAll_halts fuel :
  forall h target trees,
    graded level h -> same_level level target trees ->
    (0 < fuel)%nat ->
    (forall r, (r < length h)%nat -> (level r + 1 < fuel + level target)%nat) ->
    halts (_mergeAll fuel h target trees).
Proof.
  induction fuel as [|k IH]; intros h target trees Hg Hlv Hpos Hdeep; [lia|].
  simpl. apply halts_bind; [apply halts_merge_head|].
  intros [hc oc] Hhead. simpl.
  destruct (merge_head_frame _ _ _ _ _ Hg Hlv Hhead)
    as (Hgc & Hlenc & _ & _ & Hlc).
  destruct oc as [conts|]; [|discriminate].
  apply halts_bind; [apply halts_get|]. intros tg _.
  apply halts_bind; [apply halts_children_len|]. intros len _.
  apply (halts_for_each (fun hx : heap => graded level hx /\ length hx = length hc)).
  - now split.
  - intros hx i _ [Hgx Hlx]. unfold merge_slot.
    apply halts_bind; [apply halts_get|]. intros tgx Htgx. apply get_inv in Htgx.
    apply halts_bind; [apply halts_child_at|]. intros c Hc.
    apply child_at_inv in Hc as (cs & Hcs & Hi).
    destruct c as [cr|]; [|discriminate].
    apply halts_bind; [apply halts_slots_at|]. intros sub Hsub.
    assert (Hcr : level cr = S (level target)).
    { eapply Hgx; [exact Htgx | exact Hcs |]. eapply list_elem_of_lookup_2. exact Hi. }
    pose proof (lookup_lt_Some _ _ _ Htgx) as Hlt.
    assert (Htd : (level target + 1 < S k + level target)%nat).
    { apply Hdeep. lia. }
    apply IH.
    + exact Hgx.
    + intros t' Ht'. rewrite Hcr. eapply slots_at_level; eauto.
    + lia.
    + intros r Hr. rewrite Hcr. assert (level r + 1 < S k + level target)%nat; [|lia].
      apply Hdeep. lia.
  - intros hx i hx' _ [Hgx Hlx] Hstep. unfold merge_slot in Hstep.
    apply bind_Ok in Hstep as (tgx & Htgx & Hstep). apply get_inv in Htgx.
    apply bind_Ok in Hstep as (c & Hc & Hstep).
    apply child_at_inv in Hc as (cs & Hcs & Hi).
    destruct c as [cr|]; [|inversion Hstep; subst; now split].
    apply bind_Ok in Hstep as (sub & Hsub & Hstep).
    assert (Hcr : level cr = S (level target)).
    { eapply Hgx; [exact Htgx | exact Hcs |]. eapply list_elem_of_lookup_2. exact Hi. }
    destruct (mergeAll_frame k hx cr sub hx' Hgx) as (Hgx' & Hlx' & _); [|exact Hstep|].
    { intros t' Ht'. rewrite Hcr. eapply slots_at_level; eauto. }
    split; [exact Hgx' | congruence].
Qed.

Lemma gradedb_graded h : gradedb level h = true -> graded level h.
Proof.
  intros Hb r n cs c Hr Hcs Hc. unfold gradedb in Hb.
  assert (Hin : In (r, n) (imap pair h)).
  { apply list_elem_of_In. eapply list_elem_of_lookup_2 with (i := r).
    rewrite list_lookup_imap, Hr. reflexivity. }
  pose proof (proj1 (forallb_forall _ _) Hb _ Hin) as Hn.
  unfold node_graded in Hn. simpl in Hn. rewrite Hcs in Hn.
  apply list_elem_of_In in Hc.
  pose proof (proj1 (forallb_forall _ _) Hn _ Hc) as Hs. simpl in Hs.
  now apply Nat.eqb_eq in Hs.
Qed.

(** C6. [_mergeAll(target, trees)] adds to [target.Plays] the sum of the
    [Plays] of all the trees and to [target.Value] the sum of their [Value]s.
    The store is a forest ([graded]) in which the trees stand at the level of
    the target and the target is not one of them; with fuel for the depth of
    the store the call halts, and whenever it returns, the statistics of the
    target are the old ones plus the sums. *)
Theorem mergeAll_sums_statistics fuel h target trees tg :
  graded level h -> same_level level target trees ->
  Some target ∉ trees ->
  h !! target = Some tg ->
  (forall r, (r < length h)%nat -> (level r + 1 < fuel + level target)%nat) ->
  halts (_mergeAll fuel h target trees) /\
  forall h', _mergeAll fuel h target trees = Ok h' ->
    exists tg',
      h' !! target = Some tg' /\
      Plays tg' = (Plays tg + sum_list (map (tree_plays h) trees))%nat /\
      Value tg' == Value tg + Qsum (map (tree_value h) trees).
Proof.
  intros Hg Hlv Hnotin Htg Hdeep. split.
  - apply mergeAll_halts; auto.
    pose proof (Hdeep target (lookup_lt_Some _ _ _ Htg)). lia.
  - intros h' Hrun.
    destruct (mergeAll_frame _ _ _ _ _ Hg Hlv Hrun) as (_ & _ & _ & h1 & Hadd & Hst).
    destruct (add_stats_loop_sum _ _ _ _ _ Hnotin Htg Hadd) as (tg1 & Htg1 & Hp & Hv).
    unfold stats_at in Hst. rewrite Htg1 in Hst.
    destruct (h' !! target) as [tg'|]; [|discriminate].
    simpl in Hst. inversion Hst as [[Hp' Hv']].
    exists tg'. split; [reflexivity|]. split; [congruence|].
    rewrite Hv', Hv. apply fold_left_Qplus_sum.
Qed.

End Levels.

(** ** Moving the root *)

Lemma find_child_first h state cs c :
  first_match h state cs c -> find_child h state cs = Ok (Some c).
Proof.
  intros (i & cn & Hi & Hc & Heq & Hbefore).
  revert i Hi Hbefore. induction cs as [|x cs IH]; intros i Hi Hbefore.
  - rewrite lookup_nil in Hi. discriminate.
  - destruct i as [|i]; simpl in Hi.
    + inversion Hi; subst x. simpl. rewrite (get_Ok _ _ _ Hc). simpl. now rewrite Heq.
    + assert (Hrec : find_child h state cs = Ok (Some c)).
      { apply (IH i Hi). intros j c' Hj Hc'. apply (Hbefore (S j) c'); [lia | exact Hc']. }
      destruct x as [c0|]; simpl; [|exact Hrec].
      destruct (Hbefore 0%nat c0) as (cn0 & Hcn0 & Hne); [lia | reflexivity |].
      rewrite (get_Ok _ _ _ Hcn0). simpl. now rewrite Hne.
Qed.

Lemma find_child_none h state cs :
  no_match h state cs -> find_child h state cs = Ok None.
Proof.
  induction cs as [|x cs IH]; intros Hno; simpl; [reflexivity|].
  assert (Hrec : find_child h state cs = Ok None).
  { apply IH. intros c Hc. apply Hno. now apply list_elem_of_further. }
  destruct x as [c0|]; [|exact Hrec].
  destruct (Hno c0 (list_elem_of_here _ _)) as (cn0 & Hcn0 & Hne).
  rewrite (get_Ok _ _ _ Hcn0). simpl. now rewrite Hne.
Qed.

(** C7, as the code has it.  One [_moveRoot] step drops the root when the
    children of the root have been cut off ([Children is None]).  When the
    root has child slots and a present child has the given state, the first
    such child becomes the root; the step writes nothing to the store, so
    the [Plays] and [Value] of that child are what they were.  When the root
    has child slots and no present child has the given state, the root stays
    the root. *)
Theorem moveRoot_step h e state r n :
  Root e = Some r -> h !! r = Some n ->
  (Children n = None -> _moveRoot h e state = Ok (set_Root None e)) /\
  (forall cs c, Children n = Some cs -> first_match h state cs c ->
     _moveRoot h e state = Ok (set_Root (Some c) e)) /\
  (forall cs, Children n = Some cs -> cs <> [] -> no_match h state cs ->
     _moveRoot h e state = Ok e).
Proof.
  intros Hroot Hn. unfold _moveRoot. rewrite Hroot, (get_Ok _ _ _ Hn). simpl.
  split; [|split].
  - now intros ->.
  - intros cs c -> Hfm. now rewrite (find_child_first _ _ _ _ Hfm).
  - intros cs -> _ Hno. now rewrite (find_child_none _ _ _ Hno).
Qed.

End Facts.

Section SearchFacts.

Context {GameState PlayerId : Type}.
Context `{!StateOps GameState PlayerId} `{!Extension GameState} `{!Oracle}.

Implicit Types (h : list (Node GameState)) (n : Node GameState).

(** ** The preconditions of [FindMove] *)

Lemma Node_init_Ok state legal priors :
  length priors = length legal ->
  exists n, Node_init state legal priors = Ok n /\ State n = state /\
            Children n = Some [] /\ Plays n = 0%nat /\ Value n = 0 /\ Parent n = None.
Proof.
  intros Hl. unfold Node_init, np_multiply. rewrite length_map, Hl, Nat.eqb_refl. simpl.
  eexists. split; [reflexivity|]. simpl. tauto.
Qed.

Lemma preamble_cases e h clk state moveTime playLimit :
  (forall s, state_eqb s s = true) ->
  (Root e = None -> length (MCTS_GetPriors state) = length (MCTS_LegalActions state)) ->
  (forall r, Root e = Some r -> is_Some (h !! r)) ->
  (root_mismatch e h state /\
   FindMove_preamble e h clk state moveTime playLimit = Raise (AssertionError msg_primed))
  \/
  (~ root_mismatch e h state /\ no_budget e moveTime playLimit /\
   FindMove_preamble e h clk state moveTime playLimit = Raise (AssertionError msg_cutoff))
  \/
  (~ root_mismatch e h state /\ ~ no_budget e moveTime playLimit /\
   exists b, FindMove_preamble e h clk state moveTime playLimit = Ok b).
Proof.
  intros Hrefl Hshape Hvalid. unfold FindMove_preamble, no_budget, root_mismatch.
  destruct (Root e) as [r|] eqn:Hroot.
  - destruct (Hvalid r eq_refl) as [n Hn]. simpl. rewrite (get_Ok _ _ _ Hn). simpl.
    destruct (state_eqb (State n) state) eqn:Heq; simpl.
    + assert (Hno : ~ exists r0 n0, Some r = Some r0 /\ h !! r0 = Some n0 /\
                                    state_eqb (State n0) state = false).
      { intros (r0 & n0 & E & Hn0 & Hf). inversion E; subst r0. congruence. }
      destruct moveTime as [m|], (TimeLimit e) as [tl|],
               playLimit as [p|], (PlayLimit e) as [pl|]; simpl;
        first [ right; left; split; [exact Hno|]; split; [split; reflexivity | reflexivity]
              | right; right; split; [exact Hno|];
                split; [intros [? ?]; discriminate | eexists; reflexivity] ].
    + left. split; [|reflexivity]. exists r, n. auto.
  - destruct (Node_init_Ok state _ _ (Hshape eq_refl)) as (n & Hinit & Hst & _).
    rewrite Hinit. simpl. unfold get. rewrite list_lookup_middle by reflexivity. simpl.
    rewrite Hst, Hrefl. simpl.
    assert (Hno : ~ exists r0 n0, @None ref = Some r0 /\ h !! r0 = Some n0 /\
                                  state_eqb (State n0) state = false).
    { intros (r0 & n0 & E & _). discriminate. }
    destruct moveTime as [m|], (TimeLimit e) as [tl|],
             playLimit as [p|], (PlayLimit e) as [pl|]; simpl;
      first [ right; left; split; [exact Hno|]; split; [split; reflexivity | reflexivity]
            | right; right; split; [exact Hno|];
              split; [intros [? ?]; discriminate | eexists; reflexivity] ].
Qed.

(** C9. [FindMove] stops at one of its two assertions, with no result,
    exactly when no budget is left after the defaults are taken or a root
    exists whose state is not the given one; with a budget and a root that
    matches (or none) both assertions pass.  The state's [==] is reflexive,
    the evaluator's priors have the length of the action mask, and the root
    is an object of the store. *)
Theorem FindMove_aborts_iff e h clk state moveTime playLimit :
  (forall s, state_eqb s s = true) ->
  (Root e = None -> length (MCTS_GetPriors state) = length (MCTS_LegalActions state)) ->
  (forall r, Root e = Some r -> is_Some (h !! r)) ->
  (no_budget e moveTime playLimit \/ root_mismatch e h state ->
   exists msg,
     (msg = msg_primed \/ msg = msg_cutoff) /\
     FindMove_preamble e h clk state moveTime playLimit = Raise (AssertionError msg) /\
     forall fuel,
       FindMove fuel e h clk state moveTime playLimit = Raise (AssertionError msg)) /\
  (~ (no_budget e moveTime playLimit \/ root_mismatch e h state) ->
   exists b, FindMove_preamble e h clk state moveTime playLimit = Ok b).
Proof.
  intros Hrefl Hshape Hvalid.
  destruct (preamble_cases e h clk state moveTime playLimit Hrefl Hshape Hvalid)
    as [(Hm & Hp) | [(Hm & Hb & Hp) | (Hm & Hb & b & Hp)]].
  - split.
    + intros _. exists msg_primed. split; [now left|]. split; [exact Hp|].
      intros fuel. unfold FindMove. now rewrite Hp.
    + intros Hn. exfalso. apply Hn. now right.
  - split.
    + intros _. exists msg_cutoff. split; [now right|]. split; [exact Hp|].
      intros fuel. unfold FindMove. now rewrite Hp.
    + intros Hn. exfalso. apply Hn. now left.
  - split.
    + intros [Hb' | Hm']; contradiction.
    + intros _. now exists b.
Qed.

(** ** What [FindMove] returns *)

Lemma preamble_threads e h clk state moveTime playLimit b :
  FindMove_preamble e h clk state moveTime playLimit = Ok b ->
  Threads (b_engine b) = Threads e.
Proof.
  unfold FindMove_preamble. intros Hb.
  apply bind_Ok in Hb as ([[e1 h1] root] & Heh & Hb).
  assert (He1 : Threads e1 = Threads e).
  { destruct (Root e) as [r|].
    - now inversion Heh.
    - apply bind_Ok in Heh as (n & _ & Heh). now inversion Heh. }
  apply bind_Ok in Hb as (rn & _ & Hb).
  destruct (negb (state_eqb (State rn) state)); [discriminate|].
  destruct (fst _), (resolve playLimit (PlayLimit e)); inversion Hb; exact He1.
Qed.

(** C1, as the code has it.  When [FindMove] returns, the third component of
    its result is [ChildProbability] of the root at the exploration factor
    [0.0], the default of the method, taken on the store that the search and
    the final greedy selection left.  The search is the one the code runs on
    the store and the root the preamble hands over: [_runMCTS] on the root
    for one thread, [_runAsynch] for more than one, and none at all for
    fewer; the selection is [_selectAction(root, False)] on the store the
    search returns, and the probabilities are computed on the store the
    selection returns. *)
Theorem FindMove_probabilities fuel e h clk state moveTime playLimit m :
  FindMove fuel e h clk state moveTime playLimit = Ok m ->
  exists b hs clk' h_sel action,
    FindMove_preamble e h clk state moveTime playLimit = Ok b /\
    ((Threads e = 1%Z /\
      _runMCTS fuel (b_heap b) (b_clk b) (b_root b) (b_endTime b) (b_playLimit b)
      = Ok (hs, clk'))
     \/ ((1 < Threads e)%Z /\
         _runAsynch fuel (b_engine b) (b_heap b) (b_clk b) state
                    (b_endTime b) (b_playLimit b)
         = Ok (hs, clk'))
     \/ ((Threads e < 1)%Z /\ hs = b_heap b /\ clk' = b_clk b)) /\
    _selectAction (b_engine b) hs clk' (b_root b) false = Ok (h_sel, action) /\
    ChildProbability h_sel (b_root b) 0 = Ok (m_heap m, m_probs m).
Proof.
  unfold FindMove. intros Hrun.
  apply bind_Ok in Hrun as (b & Hb & Hrun).
  pose proof (preamble_threads _ _ _ _ _ _ _ Hb) as Hthreads.
  apply bind_Ok in Hrun as ([hs clk'] & Hsearch & Hrun).
  apply bind_Ok in Hrun as ([h_sel action] & Hsel & Hrun).
  apply bind_Ok in Hrun as (s & Hs & Hrun).
  apply bind_Ok in Hrun as ([hp probs] & Hp & Hrun).
  inversion Hrun; subst m. simpl in *.
  exists b, hs, clk', h_sel, action.
  split; [exact Hb|]. split; [|split; [exact Hsel | exact Hp]].
  rewrite Hthreads in Hsearch.
  destruct (Z.eqb_spec (Threads e) 1) as [E1 | N1].
  - left. split; [exact E1 | exact Hsearch].
  - destruct (Z.ltb_spec 1 (Threads e)) as [L | G].
    + right. left. split; [exact L | exact Hsearch].
    + right. right. inversion Hsearch; subst. split; [lia|]. split; reflexivity.
Qed.

End SearchFacts.
(** * The claims on concrete stores *)

(** ** Serialization *)

(** C10.  [__getstate__] of an engine built with one thread raises
    [KeyError]: the [Pool] attribute was never created, and [del] does not
    find the key. *)
Theorem getstate_single_thread_raises (rate : Q) (timeLimit : option Q)
    (playLimit : option Z) :
  MCTS_getstate (GameState := nat) (MCTS_init rate timeLimit playLimit 1)
  = Raise (KeyError "Pool").
Proof. reflexivity. Qed.

(** With more than one thread the pool exists, and the copy that is
    returned does not hold it. *)
Lemma getstate_pool_removed (e : MCTS) (p : Z) :
  Pool e = Some p ->
  exists d, MCTS_getstate (GameState := nat) e = Ok d /\ d !! "Pool" = None.
Proof.
  intros Hp. unfold MCTS_getstate, MCTS_dict. rewrite Hp.
  rewrite lookup_insert_eq. eexists. split; [reflexivity|]. apply lookup_delete_eq.
Qed.

(** ** The selection probabilities *)

(** C4.  On the node that [Node(0, [1,0], [1,0])] creates, whose rates are
    all zero, [ChildProbability(1.0)] divides by a zero sum: every entry is
    [nan], at the legal index 0 and at the illegal index 1. *)
Theorem ChildProbability_fresh_node_nan :
  exists n h',
    fresh_store = [n] /\ LegalActions n = [true; false] /\
    ChildProbability fresh_store 0%nat 1 = Ok (h', [NaN; NaN]).
Proof. vm_compute. do 2 eexists. repeat split; reflexivity. Qed.

(** C8.  On a node that was visited once and has no children,
    [ChildProbability(1.0)] leaves the exploration bonus in
    [_childWinRates]; the refresh of [ChildWinRates()] reaches present
    children only, so the call that follows returns [0.5] at both indices,
    where no child is. *)
Theorem ChildProbability_inflates_cache :
  exists h1 probs h2 n2,
    ChildProbability visited_leaf 0%nat 1 = Ok (h1, probs) /\
    ChildWinRates h1 0%nat = Ok h2 /\
    h2 !! 0%nat = Some n2 /\
    Children n2 = Some [] /\
    _childWinRates n2 = [1 # 2; 1 # 2].
Proof. vm_compute. do 4 eexists. repeat split; reflexivity. Qed.

(** ** The final selection *)

(** The instance of the claim: legal actions [[1,1,0]], win rates 0.8 and
    0.2; the greedy selection returns the index 0. *)
Example selectAction_one_ply :
  exists h', _selectAction primed one_ply 0%nat 0%nat false = Ok (h', 0%nat).
Proof. vm_compute. eexists. reflexivity. Qed.

(** C5.  On a root whose action 0 is illegal and whose two children have
    the win rate 0, the greedy selection returns the index 0: the masked
    vector is all zero and [argmax] takes the first index. *)
Theorem selectAction_picks_illegal :
  exists n h',
    lost_ply !! 0%nat = Some n /\
    LegalActions n = [false; true; true] /\
    Children n = Some [None; Some 1%nat; Some 2%nat] /\
    _selectAction primed lost_ply 0%nat 0%nat false = Ok (h', 0%nat).
Proof. vm_compute. do 2 eexists. repeat split; reflexivity. Qed.

(** ** The merge *)

(** C3.  Two expanded worker trees, the objects 1 and 4, are merged into a
    root as [Node.__init__] leaves it, with [Children == []].  The test
    [target.Children is None] fails on it: the root takes the statistics and
    no children, and the children of the first worker keep the statistics
    they had (3 plays at the object 2, where both workers together have 7). *)
Theorem mergeAll_fresh_root_adopts_nothing :
  exists h' tg c,
    _mergeAll 5 (workers (Some [])) 0%nat [Some 1%nat; Some 4%nat] = Ok h' /\
    h' !! 0%nat = Some tg /\ Children tg = Some [] /\ Plays tg = 10%nat /\
    h' !! 2%nat = Some c /\ Plays c = 3%nat.
Proof. vm_compute. do 3 eexists. repeat split; reflexivity. Qed.

(** The same trees merged into a target whose children were cut off
    ([None]): the target takes the children of the first worker, that worker
    loses them, the child 2 has the statistics of both workers and keeps the
    grandchildren of the first. *)
Example mergeAll_cut_root_adopts :
  exists h' tg a c,
    _mergeAll 5 (workers None) 0%nat [Some 1%nat; Some 4%nat] = Ok h' /\
    h' !! 0%nat = Some tg /\ Children tg = Some [Some 2%nat; Some 3%nat; None] /\
    h' !! 1%nat = Some a /\ Children a = None /\
    h' !! 2%nat = Some c /\ Parent c = Some 0%nat /\ Plays c = 7%nat /\
    Value c == 3 /\ Children c = Some [None; Some 7%nat; None].
Proof. vm_compute. do 4 eexists. repeat split; reflexivity. Qed.

Lemma mergeAll_sums_statistics_witness :
  exists h' tg',
    _mergeAll 2 two_leaves 0%nat [Some 1%nat; Some 2%nat] = Ok h' /\
    h' !! 0%nat = Some tg' /\ Plays tg' = 8%nat /\ Value tg' == 3.
Proof.
  assert (Hg : graded (fun _ => 0%nat) two_leaves)
    by (apply gradedb_graded; reflexivity).
  assert (Hl : same_level (fun _ => 0%nat) 0%nat [Some 1%nat; Some 2%nat])
    by (intros t _; reflexivity).
  assert (Hn : Some 0%nat ∉ [Some 1%nat; Some 2%nat]).
  { intros H. apply elem_of_cons in H as [H | H]; [discriminate|].
    apply elem_of_cons in H as [H | H]; [discriminate|].
    now apply elem_of_nil in H. }
  assert (Hd : forall r, (r < length two_leaves)%nat ->
                         ((fun _ : ref => 0%nat) r + 1 < 2 + (fun _ : ref => 0%nat) 0%nat)%nat)
    by (intros r _; simpl; lia).
  destruct (mergeAll_sums_statistics (fun _ => 0%nat) 2 two_leaves 0%nat
              [Some 1%nat; Some 2%nat] _ Hg Hl Hn eq_refl Hd) as [_ Hsum].
  destruct (Hsum _ eq_refl) as (tg' & Htg' & Hp & Hv).
  eexists. exists tg'. split; [reflexivity|]. split; [exact Htg'|].
  split; [exact Hp | exact Hv].
Defined.

(** ** Backpropagation *)

Lemma BackProp_path_witness :
  exists h',
    BackProp 3 family 2%nat (3 # 4) true = Ok h' /\
    (forall r, r ∉ [2; 1; 0]%nat -> h' !! r = family !! r) /\
    (exists n2 n1 n0,
       h' !! 2%nat = Some n2 /\ h' !! 1%nat = Some n1 /\ h' !! 0%nat = Some n0 /\
       Plays n2 = 2%nat /\ Plays n1 = 3%nat /\ Plays n0 = 4%nat /\
       Value n2 = 1 + (1 - (3 # 4)) /\ Value n1 = 1 + (3 # 4) /\ Value n0 = 0).
Proof.
  assert (Hc : chain family 2%nat [2; 1; 0]%nat).
  { eapply chain_up; [reflexivity | reflexivity |].
    eapply chain_up; [reflexivity | reflexivity |].
    eapply chain_top; reflexivity. }
  assert (Hp : Forall (has_player family) (tail [2; 1; 0]%nat)).
  { repeat constructor; eexists; (split; [reflexivity | eexists; reflexivity]). }
  destruct (BackProp_path 3 family 2%nat [2; 1; 0]%nat (3 # 4) true Hc Hp)
    as (h' & Hrun & Hoff & Hon); [simpl; lia|].
  exists h'. split; [exact Hrun|]. split; [exact Hoff|].
  destruct (Hon 2%nat _ ltac:(repeat constructor) eq_refl)
    as (n2 & Hn2 & Hp2 & _ & (pn2 & pl2 & Hpn2 & Hpl2 & Hv2)).
  destruct (Hon 1%nat _ ltac:(repeat constructor) eq_refl)
    as (n1 & Hn1 & Hp1 & _ & (pn1 & pl1 & Hpn1 & Hpl1 & Hv1)).
  destruct (Hon 0%nat _ ltac:(repeat constructor) eq_refl)
    as (n0 & Hn0 & Hp0 & _ & Hv0).
  exists n2, n1, n0.
  inversion Hpn2; subst pn2. inversion Hpl2; subst pl2.
  inversion Hpn1; subst pn1. inversion Hpl1; subst pl1.
  repeat split; assumption.
Defined.

(** ** Moving the root *)

(** C7, the claim as it stands fails: no child of the root of [one_ply] has
    the state 7, and the step leaves the root where it is. *)
Lemma moveRoot_no_match_counterexample :
  no_match one_ply 7%nat [Some 1; Some 2; None]%nat /\
  _moveRoot one_ply primed 7%nat = Ok primed /\ Root primed = Some 0%nat.
Proof.
  split; [|split; reflexivity].
  intros c Hc.
  apply elem_of_cons in Hc as [Hc | Hc]; [inversion Hc; subst c; eexists; split; reflexivity|].
  apply elem_of_cons in Hc as [Hc | Hc]; [inversion Hc; subst c; eexists; split; reflexivity|].
  apply elem_of_cons in Hc as [Hc | Hc]; [discriminate|].
  now apply elem_of_nil in Hc.
Qed.

Lemma moveRoot_step_witness :
  _moveRoot one_ply primed 2%nat = Ok (set_Root (Some 2%nat) primed).
Proof.
  destruct (moveRoot_step one_ply primed 2%nat 0%nat _ eq_refl eq_refl) as (_ & Hm & _).
  apply (Hm _ 2%nat eq_refl).
  exists 1%nat. eexists. split; [reflexivity|]. split; [reflexivity|].
  split; [reflexivity|].
  intros j c' Hj Hc'. destruct j as [|j]; [|lia].
  inversion Hc'; subst c'. eexists. split; reflexivity.
Defined.

(** ** [FindMove] *)

Lemma FindMove_aborts_iff_witness :
  exists msg,
    FindMove_preamble (MCTS_init 1 None None 1) [] 0%nat 0%nat None None
    = Raise (AssertionError msg) /\
    forall fuel,
      FindMove fuel (MCTS_init 1 None None 1) [] 0%nat 0%nat None None
      = Raise (AssertionError msg).
Proof.
  destruct (FindMove_aborts_iff (MCTS_init 1 None None 1) [] 0%nat 0%nat None None)
    as [Habort _].
  - intros s. apply Nat.eqb_refl.
  - intros _. reflexivity.
  - intros r Hr. discriminate.
  - destruct Habort as (msg & _ & Hp & Hf); [left; split; reflexivity|].
    exists msg. split; [exact Hp | exact Hf].
Defined.

(** C1, the claim as it stands fails: on the root of [one_ply], primed and
    with its play limit reached, [FindMove] returns [None] for the state, the
    method [AvgValue] itself for the value, and the probabilities at the
    factor 0.0, which are 0.8, 0.2 and 0 and not those at the configured
    exploration rate 1. *)
Lemma FindMove_triple_counterexample :
  exists m hp probs,
    FindMove 10 primed one_ply 0%nat 0%nat None None = Ok m /\
    m_state m = PyNone /\
    m_value m = PyBoundMethod 0%nat "AvgValue" /\
    probs_eqb (m_probs m) [Fin (4 # 5); Fin (1 # 5); Fin 0] = true /\
    ChildProbability one_ply 0%nat (ExplorationRate primed) = Ok (hp, probs) /\
    probs_eqb (m_probs m) probs = false.
Proof. vm_compute. do 3 eexists. repeat split; reflexivity. Qed.

Lemma FindMove_probabilities_witness :
  exists m b hs clk' h_sel action,
    FindMove 10 primed one_ply 0%nat 0%nat None None = Ok m /\
    FindMove_preamble primed one_ply 0%nat 0%nat None None = Ok b /\
    _runMCTS 10 (b_heap b) (b_clk b) (b_root b) (b_endTime b) (b_playLimit b)
    = Ok (hs, clk') /\
    _selectAction (b_engine b) hs clk' (b_root b) false = Ok (h_sel, action) /\
    ChildProbability h_sel (b_root b) 0 = Ok (m_heap m, m_probs m).
Proof.
  destruct (FindMove 10 primed one_ply 0%nat 0%nat None None) as [m| |] eqn:Hrun;
    [|vm_compute in Hrun; discriminate|vm_compute in Hrun; discriminate].
  destruct (FindMove_probabilities 10 primed one_ply 0%nat 0%nat None None m Hrun)
    as (b & hs & clk' & h_sel & action & Hb & Hsearch & Hs & Hp).
  exists m, b, hs, clk', h_sel, action.
  split; [reflexivity|]. split; [exact Hb|]. split; [|split; [exact Hs | exact Hp]].
  destruct Hsearch as [(_ & Hr) | [(Hlt & _) | (Hlt & _)]];
    [exact Hr | simpl in Hlt; lia | simpl in Hlt; lia].
Defined.

(** * More of the code *)

Section NodeFacts.

Context {GameState : Type}.

Implicit Types (h hx : list (Node GameState)) (n nx : Node GameState).

(** ** [Node.__init__] *)

(** X1.  [Node(state, legalActions, priors)] raises [ValueError] exactly
    when priors and mask differ in length and neither has length one.
    Otherwise the new node has no visits, no value, no parent and the empty
    list of children; it keeps the mask as it is, and its caches are zero and
    as long as the mask.  Its priors are the products of the given priors and
    the mask, a length-one operand standing at every index: with equal
    lengths the given priors at the legal indices and zero at the illegal
    ones, as long as the mask unless the mask has length one, and then as
    long as the given priors. *)
Theorem Node_init_masks_priors (state : GameState) (legal : list bool) (priors : list Q) :
  (Node_init state legal priors = Raise ValueError <->
   length priors <> length legal /\ length priors <> 1%nat /\ length legal <> 1%nat) /\
  (length priors = length legal \/ length priors = 1%nat \/ length legal = 1%nat ->
   exists n,
     Node_init state legal priors = Ok n /\
     State n = state /\ LegalActions n = legal /\ Plays n = 0%nat /\ Value n = 0 /\
     Children n = Some [] /\ Parent n = None /\
     _childWinRates n = replicate (length legal) 0 /\
     _childPlays n = replicate (length legal) 0%nat /\
     length (Priors n)
       = (if Nat.eqb (length legal) 1 then length priors else length legal) /\
     (forall i q, Priors n !! i = Some q ->
        exists p b,
          (priors !! i = Some p \/ priors = [p]) /\
          (legal !! i = Some b \/ legal = [b]) /\ q = p * mask b) /\
     (length priors = length legal ->
      (forall i p, legal !! i = Some true -> priors !! i = Some p ->
         exists q, Priors n !! i = Some q /\ q == p) /\
      (forall i, legal !! i = Some false ->
         exists q, Priors n !! i = Some q /\ q == 0))).
Proof.
  assert (Hcases :
    length priors = length legal /\
      Node_init state legal priors
      = Ok (mkNode state 0 0 legal (Some []) None
              (zip_with Qmult priors (map mask legal))
              (replicate (length legal) 0) (replicate (length legal) 0%nat))
    \/ (length priors <> length legal /\ exists p, priors = [p] /\
        Node_init state legal priors
        = Ok (mkNode state 0 0 legal (Some []) None
                (map (Qmult p) (map mask legal))
                (replicate (length legal) 0) (replicate (length legal) 0%nat)))
    \/ (length priors <> length legal /\ length priors <> 1%nat /\
        exists b, legal = [b] /\
        Node_init state legal priors
        = Ok (mkNode state 0 0 legal (Some []) None
                (map (fun x => x * mask b) priors)
                (replicate (length legal) 0) (replicate (length legal) 0%nat)))
    \/ (length priors <> length legal /\ length priors <> 1%nat /\
        length legal <> 1%nat /\ Node_init state legal priors = Raise ValueError)).
  { unfold Node_init, np_multiply. rewrite length_map.
    destruct (Nat.eqb (length priors) (length legal)) eqn:E.
    - apply Nat.eqb_eq in E. left. split; [exact E | reflexivity].
    - apply Nat.eqb_neq in E. right.
      destruct priors as [|p [|p' priors']].
      + destruct legal as [|b [|b' legal']]; simpl in *.
        * congruence.
        * right. left. split; [lia|]. split; [lia|]. exists b. split; reflexivity.
        * right. right. repeat split; simpl; lia.
      + left. split; [exact E|]. exists p. split; reflexivity.
      + right. destruct legal as [|b [|b' legal']]; simpl in *.
        * right. repeat split; simpl; lia.
        * left. split; [lia|]. split; [lia|]. exists b. split; reflexivity.
        * right. repeat split; simpl; lia. }
  split.
  - split.
    + intros Hraise.
      destruct Hcases as [(_ & E) | [(_ & p & _ & E) | [(_ & _ & b & _ & E) | (H1 & H2 & H3 & _)]]];
        try (rewrite E in Hraise; discriminate). auto.
    + intros (H1 & H2 & H3).
      destruct Hcases as [(E & _) | [(_ & p & -> & _) | [(_ & _ & b & -> & _) | (_ & _ & _ & E)]]];
        [contradiction | simpl in H2; lia | simpl in H3; lia | exact E].
  - intros Hshape.
    destruct Hcases as [(Hlen & E) | [(Hne & p & -> & E) | [(Hne & Hn1 & b & -> & E) | (H1 & H2 & H3 & _)]]];
      [| | |lia].
    + eexists. split; [exact E|]. simpl. repeat (split; [reflexivity|]).
      split; [|split; [|intros _; split]].
      * rewrite length_zip_with, length_map.
        destruct (Nat.eqb (length legal) 1); lia.
      * intros i q Hq. rewrite lookup_zip_with in Hq.
        destruct (priors !! i) as [p|] eqn:Hp; [|discriminate]. simpl in Hq.
        rewrite (list_lookup_fmap _ legal) in Hq.
        destruct (legal !! i) as [b|] eqn:Hb; [|discriminate]. simpl in Hq.
        inversion Hq; subst q. exists p, b. auto.
      * intros i p Hl Hp. exists (p * 1). split; [|ring].
        rewrite lookup_zip_with, Hp. simpl.
        rewrite (list_lookup_fmap _ legal), Hl. reflexivity.
      * intros i Hl.
        assert (Hlt : (i < length priors)%nat)
          by (rewrite Hlen; eapply lookup_lt_Some; eauto).
        destruct (lookup_lt_is_Some_2 priors i Hlt) as [p Hp].
        exists (p * 0). split; [|ring].
        rewrite lookup_zip_with, Hp. simpl.
        rewrite (list_lookup_fmap _ legal), Hl. reflexivity.
    + eexists. split; [exact E|]. simpl. repeat (split; [reflexivity|]).
      split; [|split; [|intros Hlen; simpl in Hne; congruence]].
      * rewrite !length_map. simpl in Hne.
        destruct (Nat.eqb (length legal) 1) eqn:E1; [|reflexivity].
        apply Nat.eqb_eq in E1. lia.
      * intros i q Hq. rewrite (list_lookup_fmap _ (map mask legal)) in Hq.
        rewrite (list_lookup_fmap _ legal) in Hq.
        destruct (legal !! i) as [b|] eqn:Hb; [|discriminate]. simpl in Hq.
        inversion Hq; subst q. exists p, b. auto.
    + eexists. split; [exact E|]. simpl. repeat (split; [reflexivity|]).
      split; [|split; [|intros Hlen; simpl in Hne; congruence]].
      * now rewrite length_map.
      * intros i q Hq. rewrite (list_lookup_fmap _ priors) in Hq.
        destruct (priors !! i) as [p|] eqn:Hp; [|discriminate]. simpl in Hq.
        inversion Hq; subst q. exists p, b. auto.
Qed.

(** The constructor broadcasts a single prior over the mask, and a single
    mask entry over the priors. *)
Example Node_init_broadcasts :
  (exists x, Node_init 0%nat [true; false] [1 # 2] = Ok x /\
             Priors x = [(1 # 2) * 1; (1 # 2) * 0] /\
             _childPlays x = [0; 0]%nat) /\
  (exists x, Node_init 0%nat [true] [1 # 4; 3 # 4] = Ok x /\
             Priors x = [(1 # 4) * 1; (3 # 4) * 1] /\
             _childPlays x = [0%nat]) /\
  Node_init 0%nat [true; false] [1 # 4; 1 # 4; 1 # 2] = Raise ValueError.
Proof.
  split; [|split]; [eexists; repeat split | eexists; repeat split | reflexivity].
Qed.

(** ** The refresh of the caches *)

Lemma for_each_seq_invariant {S : Type} (P : nat -> S -> Prop)
    (body : S -> nat -> result S) :
  forall k a s s',
    (forall i s0 s1, (a <= i < a + k)%nat -> P i s0 -> body s0 i = Ok s1 -> P (Datatypes.S i) s1) ->
    P a s -> for_each body (seq a k) s = Ok s' -> P (a + k)%nat s'.
Proof.
  induction k as [|k IH]; intros a s s' Hstep Ha Hrun; simpl in Hrun.
  - inversion Hrun; subst. now rewrite Nat.add_0_r.
  - apply bind_Ok in Hrun as (s1 & Hb & Hrun).
    replace (a + Datatypes.S k)%nat with (Datatypes.S a + k)%nat by lia.
    apply (IH (Datatypes.S a) s1 s'); [| |exact Hrun].
    + intros i s0 s2 Hi. apply Hstep. lia.
    + eapply Hstep; [|exact Ha|exact Hb]. lia.
Qed.

Lemma same_but_caches_WinRate n n' : same_but_caches n n' -> WinRate n' = WinRate n.
Proof. intros (_ & Hv & Hp & _). unfold WinRate. now rewrite Hv, Hp. Qed.

Lemma store_Ok {A : Type} (a : list A) i (x : A) a' :
  store a i x = Ok a' -> (i < length a)%nat /\ a' = <[i := x]> a.
Proof.
  unfold store. destruct (Nat.ltb i (length a)) eqn:E; [|discriminate].
  apply Nat.ltb_lt in E. inversion 1. now split.
Qed.

Lemma refreshed_rates_0 h cs old : refreshed_rates h cs 0 old = old.
Proof.
  unfold refreshed_rates. apply list_eq. intros i. rewrite list_lookup_imap.
  destruct (old !! i); reflexivity.
Qed.

Lemma refreshed_rates_skip h cs j old :
  (cs !! j = Some None \/ cs !! j = None) ->
  refreshed_rates h cs (S j) old = refreshed_rates h cs j old.
Proof.
  intros Hj. unfold refreshed_rates. apply list_eq. intros i.
  rewrite !list_lookup_imap. destruct (old !! i) as [x|]; [|reflexivity]. simpl.
  destruct (decide (i = j)) as [-> | Hne].
  - rewrite Nat.ltb_irrefl.
    destruct (Nat.ltb j (S j)); [|reflexivity]. destruct Hj as [-> | ->]; reflexivity.
  - assert (Nat.ltb i (S j) = Nat.ltb i j) as ->; [|reflexivity].
    destruct (Nat.ltb_spec i j), (Nat.ltb_spec i (S j)); try reflexivity; lia.
Qed.

Lemma refreshed_rates_write h cs j old c cn :
  cs !! j = Some (Some c) -> h !! c = Some cn ->
  <[j := WinRate cn]> (refreshed_rates h cs j old) = refreshed_rates h cs (S j) old.
Proof.
  intros Hj Hc. unfold refreshed_rates. apply list_eq. intros i.
  destruct (decide (i = j)) as [-> | Hne].
  - rewrite list_lookup_imap. destruct (old !! j) as [x|] eqn:Ho.
    + rewrite list_lookup_insert_eq
        by (rewrite length_imap; eapply lookup_lt_Some; eauto).
      simpl. assert (Nat.ltb j (S j) = true) as -> by (apply Nat.ltb_lt; lia).
      now rewrite Hj, Hc.
    + simpl. apply lookup_ge_None. rewrite length_insert, length_imap.
      now apply lookup_ge_None.
  - rewrite list_lookup_insert_ne by congruence. rewrite !list_lookup_imap.
    destruct (old !! i) as [x|]; [|reflexivity]. simpl.
    assert (Nat.ltb i (S j) = Nat.ltb i j) as ->; [|reflexivity].
    destruct (Nat.ltb_spec i j), (Nat.ltb_spec i (S j)); try reflexivity; lia.
Qed.

Lemma ChildWinRates_loop h r n cs :
  h !! r = Some n -> Children n = Some cs ->
  forall h',
    for_each (ChildWinRates_step r) (seq 0 (length cs)) h = Ok h' ->
    exists n',
      h' !! r = Some n' /\ same_but_caches n n' /\
      _childPlays n' = _childPlays n /\
      _childWinRates n' = refreshed_rates h cs (length cs) (_childWinRates n) /\
      (forall x, x <> r -> h' !! x = h !! x).
Proof.
  intros Hr Hcs h' Hrun.
  set (P := fun (j : nat) (hx : list (Node GameState)) =>
              exists nx,
                hx !! r = Some nx /\ same_but_caches n nx /\
                _childPlays nx = _childPlays n /\
                _childWinRates nx = refreshed_rates h cs j (_childWinRates n) /\
                (forall x, x <> r -> hx !! x = h !! x)).
  apply (for_each_seq_invariant P (ChildWinRates_step r) (length cs) 0%nat h h');
    [| |exact Hrun].
  - intros i hx hx' Hi (nx & Hnx & Hs & Hp & Hw & Hoff) Hstep.
    unfold ChildWinRates_step in Hstep.
    apply bind_Ok in Hstep as (nx0 & Hnx0 & Hstep). apply get_inv in Hnx0.
    assert (nx0 = nx) by congruence. subst nx0.
    apply bind_Ok in Hstep as (c & Hc & Hstep).
    apply child_at_inv in Hc as (cs' & Hcs' & Hci).
    assert (cs' = cs) by (destruct Hs as (_ & _ & _ & _ & Hch & _); congruence).
    subst cs'.
    destruct c as [cr|].
    + apply bind_Ok in Hstep as (cn & Hcn & Hstep). apply get_inv in Hcn.
      apply bind_Ok in Hstep as (w & Hw' & Hstep).
      apply store_Ok in Hw' as [Hlt ->].
      apply update_inv in Hstep as (n0 & Hn0 & ->).
      assert (n0 = nx) by congruence. subst n0.
      assert (Hwr : exists cn0, h !! cr = Some cn0 /\ WinRate cn = WinRate cn0).
      { destruct (decide (cr = r)) as [-> | Hne].
        - exists n. split; [exact Hr|]. assert (cn = nx) by congruence. subst cn.
          now apply same_but_caches_WinRate.
        - exists cn. split; [|reflexivity]. now rewrite <- Hoff. }
      destruct Hwr as (cn0 & Hcn0 & Ewr).
      exists (set_childWinRates (<[i := WinRate cn]> (_childWinRates nx)) nx).
      split; [apply list_lookup_insert_eq; eapply lookup_lt_Some; eauto|].
      split; [unfold same_but_caches in *; simpl; tauto|].
      split; [exact Hp|]. split.
      * simpl. rewrite Hw, Ewr. exact (refreshed_rates_write h cs i _ cr cn0 Hci Hcn0).
      * intros x Hx. rewrite list_lookup_insert_ne by congruence. now apply Hoff.
    + inversion Hstep; subst hx'. exists nx. split; [exact Hnx|].
      split; [exact Hs|]. split; [exact Hp|]. split; [|exact Hoff].
      rewrite Hw. symmetry. apply refreshed_rates_skip. now left.
  - exists n. split; [exact Hr|]. split; [apply same_but_caches_refl|].
    split; [reflexivity|]. split; [|reflexivity].
    symmetry. apply refreshed_rates_0.
Qed.

Lemma refreshed_rates_child h cs old i c cn :
  cs !! i = Some (Some c) -> h !! c = Some cn -> (i < length old)%nat ->
  refreshed_rates h cs (length cs) old !! i = Some (WinRate cn).
Proof.
  intros Hi Hc Hlt. unfold refreshed_rates. rewrite list_lookup_imap.
  destruct (lookup_lt_is_Some_2 _ i Hlt) as [x Hx]. rewrite Hx. simpl.
  assert (Nat.ltb i (length cs) = true) as ->
    by (apply Nat.ltb_lt; eapply lookup_lt_Some; eauto).
  now rewrite Hi, Hc.
Qed.

Lemma refreshed_rates_other h cs old i :
  cs !! i = Some None \/ cs !! i = None ->
  refreshed_rates h cs (length cs) old !! i = old !! i.
Proof.
  intros Hi. unfold refreshed_rates. rewrite list_lookup_imap.
  destruct (old !! i) as [x|]; [|reflexivity]. simpl.
  destruct (Nat.ltb i (length cs)); [|reflexivity].
  destruct Hi as [-> | ->]; reflexivity.
Qed.

Lemma ChildWinRates_cache h r h' :
  ChildWinRates h r = Ok h' ->
  exists n n' cs,
    h !! r = Some n /\ Children n = Some cs /\ h' !! r = Some n' /\
    same_but_caches n n' /\ _childPlays n' = _childPlays n /\
    _childWinRates n' = refreshed_rates h cs (length cs) (_childWinRates n) /\
    (forall x, x <> r -> h' !! x = h !! x).
Proof.
  unfold ChildWinRates. intros Hrun.
  apply bind_Ok in Hrun as (n & Hn & Hrun). apply get_inv in Hn.
  apply bind_Ok in Hrun as (len & Hlen & Hrun).
  unfold children_len in Hlen. destruct (Children n) as [cs|] eqn:Hcs; [|discriminate].
  inversion Hlen; subst len.
  destruct (ChildWinRates_loop h r n cs Hn Hcs h' Hrun) as (n' & Hn' & Hs & Hp & Hw & Hoff).
  exists n, n', cs. repeat (split; [assumption|]). exact Hoff.
Qed.

(** X2.  When [ChildWinRates] returns, the cache of the node holds the win
    rate of the child at every index that has a child and its old entry at
    every other index; [_childPlays] and everything else of the node stay,
    and no other object changes. *)
Theorem ChildWinRates_refresh h r h' :
  ChildWinRates h r = Ok h' ->
  exists n n' cs,
    h !! r = Some n /\ Children n = Some cs /\ h' !! r = Some n' /\
    same_but_caches n n' /\ _childPlays n' = _childPlays n /\
    length (_childWinRates n') = length (_childWinRates n) /\
    (forall x, x <> r -> h' !! x = h !! x) /\
    (forall i c cn, cs !! i = Some (Some c) -> h !! c = Some cn ->
       (i < length (_childWinRates n))%nat ->
       _childWinRates n' !! i = Some (WinRate cn)) /\
    (forall i, cs !! i = Some None \/ cs !! i = None ->
       _childWinRates n' !! i = _childWinRates n !! i).
Proof.
  intros Hrun.
  apply ChildWinRates_cache in Hrun as (n & n' & cs & Hn & Hcs & Hn' & Hs & Hp & Hw & Hoff).
  exists n, n', cs. repeat (split; [assumption|]).
  split; [rewrite Hw; unfold refreshed_rates; apply length_imap|].
  split; [exact Hoff|]. split.
  - intros i c cn Hi Hc Hlt. rewrite Hw. now apply (refreshed_rates_child h cs _ i c cn).
  - intros i Hi. rewrite Hw. now apply refreshed_rates_other.
Qed.

Lemma refreshed_plays_0 h cs old : refreshed_plays h cs 0 old = old.
Proof.
  unfold refreshed_plays. apply list_eq. intros i. rewrite list_lookup_imap.
  destruct (old !! i); reflexivity.
Qed.

Lemma refreshed_plays_skip h cs j old :
  (cs !! j = Some None \/ cs !! j = None) ->
  refreshed_plays h cs (S j) old = refreshed_plays h cs j old.
Proof.
  intros Hj. unfold refreshed_plays. apply list_eq. intros i.
  rewrite !list_lookup_imap. destruct (old !! i) as [x|]; [|reflexivity]. simpl.
  destruct (decide (i = j)) as [-> | Hne].
  - rewrite Nat.ltb_irrefl.
    destruct (Nat.ltb j (S j)); [|reflexivity]. destruct Hj as [-> | ->]; reflexivity.
  - assert (Nat.ltb i (S j) = Nat.ltb i j) as ->; [|reflexivity].
    destruct (Nat.ltb_spec i j), (Nat.ltb_spec i (S j)); try reflexivity; lia.
Qed.

Lemma refreshed_plays_write h cs j old c cn :
  cs !! j = Some (Some c) -> h !! c = Some cn ->
  <[j := Plays cn]> (refreshed_plays h cs j old) = refreshed_plays h cs (S j) old.
Proof.
  intros Hj Hc. unfold refreshed_plays. apply list_eq. intros i.
  destruct (decide (i = j)) as [-> | Hne].
  - rewrite list_lookup_imap. destruct (old !! j) as [x|] eqn:Ho.
    + rewrite list_lookup_insert_eq
        by (rewrite length_imap; eapply lookup_lt_Some; eauto).
      simpl. assert (Nat.ltb j (S j) = true) as -> by (apply Nat.ltb_lt; lia).
      now rewrite Hj, Hc.
    + simpl. apply lookup_ge_None. rewrite length_insert, length_imap.
      now apply lookup_ge_None.
  - rewrite list_lookup_insert_ne by congruence. rewrite !list_lookup_imap.
    destruct (old !! i) as [x|]; [|reflexivity]. simpl.
    assert (Nat.ltb i (S j) = Nat.ltb i j) as ->; [|reflexivity].
    destruct (Nat.ltb_spec i j), (Nat.ltb_spec i (S j)); try reflexivity; lia.
Qed.

Lemma ChildPlays_loop h r n cs :
  h !! r = Some n -> Children n = Some cs ->
  forall h',
    for_each (ChildPlays_step r) (seq 0 (length cs)) h = Ok h' ->
    exists n',
      h' !! r = Some n' /\ same_but_caches n n' /\
      _childWinRates n' = _childWinRates n /\
      _childPlays n' = refreshed_plays h cs (length cs) (_childPlays n) /\
      (forall x, x <> r -> h' !! x = h !! x).
Proof.
  intros Hr Hcs h' Hrun.
  set (P := fun (j : nat) (hx : list (Node GameState)) =>
              exists nx,
                hx !! r = Some nx /\ same_but_caches n nx /\
                _childWinRates nx = _childWinRates n /\
                _childPlays nx = refreshed_plays h cs j (_childPlays n) /\
                (forall x, x <> r -> hx !! x = h !! x)).
  apply (for_each_seq_invariant P (ChildPlays_step r) (length cs) 0%nat h h');
    [| |exact Hrun].
  - intros i hx hx' Hi (nx & Hnx & Hs & Hp & Hw & Hoff) Hstep.
    unfold ChildPlays_step in Hstep.
    apply bind_Ok in Hstep as (nx0 & Hnx0 & Hstep). apply get_inv in Hnx0.
    assert (nx0 = nx) by congruence. subst nx0.
    apply bind_Ok in Hstep as (c & Hc & Hstep).
    apply child_at_inv in Hc as (cs' & Hcs' & Hci).
    assert (cs' = cs) by (destruct Hs as (_ & _ & _ & _ & Hch & _); congruence).
    subst cs'.
    destruct c as [cr|].
    + apply bind_Ok in Hstep as (cn & Hcn & Hstep). apply get_inv in Hcn.
      apply bind_Ok in Hstep as (w & Hw' & Hstep).
      apply store_Ok in Hw' as [Hlt ->].
      apply update_inv in Hstep as (n0 & Hn0 & ->).
      assert (n0 = nx) by congruence. subst n0.
      assert (Hwr : exists cn0, h !! cr = Some cn0 /\ Plays cn = Plays cn0).
      { destruct (decide (cr = r)) as [-> | Hne].
        - exists n. split; [exact Hr|]. assert (cn = nx) by congruence. subst cn.
          now destruct Hs as (_ & _ & -> & _).
        - exists cn. split; [|reflexivity]. now rewrite <- Hoff. }
      destruct Hwr as (cn0 & Hcn0 & Epl).
      exists (set_childPlays (<[i := Plays cn]> (_childPlays nx)) nx).
      split; [apply list_lookup_insert_eq; eapply lookup_lt_Some; eauto|].
      split; [unfold same_but_caches in *; simpl; tauto|].
      split; [exact Hp|]. split.
      * simpl. rewrite Hw, Epl. exact (refreshed_plays_write h cs i _ cr cn0 Hci Hcn0).
      * intros x Hx. rewrite list_lookup_insert_ne by congruence. now apply Hoff.
    + inversion Hstep; subst hx'. exists nx. split; [exact Hnx|].
      split; [exact Hs|]. split; [exact Hp|]. split; [|exact Hoff].
      rewrite Hw. symmetry. apply refreshed_plays_skip. now left.
  - exists n. split; [exact Hr|]. split; [apply same_but_caches_refl|].
    split; [reflexivity|]. split; [|reflexivity].
    symmetry. apply refreshed_plays_0.
Qed.

Lemma refreshed_plays_child h cs old i c cn :
  cs !! i = Some (Some c) -> h !! c = Some cn -> (i < length old)%nat ->
  refreshed_plays h cs (length cs) old !! i = Some (Plays cn).
Proof.
  intros Hi Hc Hlt. unfold refreshed_plays. rewrite list_lookup_imap.
  destruct (lookup_lt_is_Some_2 _ i Hlt) as [x Hx]. rewrite Hx. simpl.
  assert (Nat.ltb i (length cs) = true) as ->
    by (apply Nat.ltb_lt; eapply lookup_lt_Some; eauto).
  now rewrite Hi, Hc.
Qed.

Lemma refreshed_plays_other h cs old i :
  cs !! i = Some None \/ cs !! i = None ->
  refreshed_plays h cs (length cs) old !! i = old !! i.
Proof.
  intros Hi. unfold refreshed_plays. rewrite list_lookup_imap.
  destruct (old !! i) as [x|]; [|reflexivity]. simpl.
  destruct (Nat.ltb i (length cs)); [|reflexivity].
  destruct Hi as [-> | ->]; reflexivity.
Qed.

Lemma ChildPlays_cache h r h' :
  ChildPlays h r = Ok h' ->
  exists n n' cs,
    h !! r = Some n /\ Children n = Some cs /\ h' !! r = Some n' /\
    same_but_caches n n' /\ _childWinRates n' = _childWinRates n /\
    _childPlays n' = refreshed_plays h cs (length cs) (_childPlays n) /\
    (forall x, x <> r -> h' !! x = h !! x).
Proof.
  unfold ChildPlays. intros Hrun.
  apply bind_Ok in Hrun as (n & Hn & Hrun). apply get_inv in Hn.
  apply bind_Ok in Hrun as (len & Hlen & Hrun).
  unfold children_len in Hlen. destruct (Children n) as [cs|] eqn:Hcs; [|discriminate].
  inversion Hlen; subst len.
  destruct (ChildPlays_loop h r n cs Hn Hcs h' Hrun) as (n' & Hn' & Hs & Hp & Hw & Hoff).
  exists n, n', cs. repeat (split; [assumption|]). exact Hoff.
Qed.

(** X3.  When [ChildPlays] returns, the cache of the node holds the visit
    count of the child at every index that has a child and its old entry at
    every other index; [_childWinRates] and everything else of the node stay,
    and no other object changes. *)
Theorem ChildPlays_refresh h r h' :
  ChildPlays h r = Ok h' ->
  exists n n' cs,
    h !! r = Some n /\ Children n = Some cs /\ h' !! r = Some n' /\
    same_but_caches n n' /\ _childWinRates n' = _childWinRates n /\
    length (_childPlays n') = length (_childPlays n) /\
    (forall x, x <> r -> h' !! x = h !! x) /\
    (forall i c cn, cs !! i = Some (Some c) -> h !! c = Some cn ->
       (i < length (_childPlays n))%nat ->
       _childPlays n' !! i = Some (Plays cn)) /\
    (forall i, cs !! i = Some None \/ cs !! i = None ->
       _childPlays n' !! i = _childPlays n !! i).
Proof.
  intros Hrun.
  apply ChildPlays_cache in Hrun as (n & n' & cs & Hn & Hcs & Hn' & Hs & Hp & Hw & Hoff).
  exists n, n', cs. repeat (split; [assumption|]).
  split; [rewrite Hw; unfold refreshed_plays; apply length_imap|].
  split; [exact Hoff|]. split.
  - intros i c cn Hi Hc Hlt. rewrite Hw. now apply (refreshed_plays_child h cs _ i c cn).
  - intros i Hi. rewrite Hw. now apply refreshed_plays_other.
Qed.


End NodeFacts.

Section FormulaFacts.

Context {GameState : Type}.

Implicit Types (h hx : list (Node GameState)) (n nx : Node GameState).

(** ** The rates of [ChildProbability] *)

(** X4.  When [ChildProbability(f)] returns, the rate it has computed, and
    left in [_childWinRates], is at every index with a child
    [winRate(child) + f * prior * plays / (1 + plays(child))], and at an
    index without a child the old cache entries combined in the same way;
    the result is that vector divided by its sum and multiplied by the mask. *)
Theorem ChildProbability_rates h r f h' probs :
  ChildProbability h r f = Ok (h', probs) ->
  exists n n' cs,
    h !! r = Some n /\ Children n = Some cs /\ h' !! r = Some n' /\
    probs = normalised (_childWinRates n') (LegalActions n) /\
    (forall i c cn p,
       cs !! i = Some (Some c) -> h !! c = Some cn -> Priors n !! i = Some p ->
       _childWinRates n' !! i = Some (WinRate cn + bonus f (Plays n) p (Plays cn))) /\
    (forall i w v p,
       cs !! i = Some None \/ cs !! i = None ->
       _childWinRates n !! i = Some w -> _childPlays n !! i = Some v ->
       Priors n !! i = Some p ->
       _childWinRates n' !! i = Some (w + bonus f (Plays n) p v)).
Proof.
  unfold ChildProbability. intros Hrun.
  apply bind_Ok in Hrun as (h1 & H1 & Hrun). apply bind_Ok in Hrun as (h2 & H2 & Hrun).
  apply bind_Ok in Hrun as (n2 & Hn2 & Hrun). apply get_inv in Hn2.
  apply bind_Ok in Hrun as (bs & Hbs & Hrun). apply np_zip_Ok in Hbs as [Lb ->].
  apply bind_Ok in Hrun as (rates & Hrates & Hrun).
  apply np_zip_Ok in Hrates as [Lr ->].
  apply bind_Ok in Hrun as (h3 & H3 & Hrun).
  apply update_inv in H3 as (n0 & Hn0 & ->).
  assert (n0 = n2) by congruence. subst n0.
  apply bind_Ok in Hrun as (ps & Hps & Hrun). apply np_zip_Ok in Hps as [_ ->].
  inversion Hrun; subst h' probs. clear Hrun.
  apply ChildWinRates_cache in H1
    as (n & n1 & cs & Hn & Hcs & Hn1 & S1 & P1 & E1 & Off1).
  apply ChildPlays_cache in H2
    as (n1' & n2' & cs' & Hn1' & Hcs' & Hn2' & S2 & W2 & E2 & Off2).
  assert (n1' = n1) by congruence. subst n1'.
  assert (n2' = n2) by congruence. subst n2'.
  assert (cs' = cs) by (destruct S1 as (_ & _ & _ & _ & E & _); congruence). subst cs'.
  destruct S1 as (_ & V1 & PL1 & LA1 & _ & _ & PR1).
  destruct S2 as (_ & V2' & PL2 & LA2 & _ & _ & PR2).
  rewrite length_zip_with in Lr.
  exists n, (set_childWinRates
               (zip_with Qplus (_childWinRates n2)
                  (zip_with (bonus f (Plays n2)) (Priors n2) (_childPlays n2))) n2), cs.
  split; [exact Hn|]. split; [exact Hcs|].
  split; [apply list_lookup_insert_eq; eapply lookup_lt_Some; eauto|].
  split; [unfold normalised; simpl; now rewrite LA2, LA1|].
  assert (Hplays : forall c cn, h !! c = Some cn ->
                     exists cn1, h1 !! c = Some cn1 /\ Plays cn1 = Plays cn).
  { intros c cn Hc. destruct (decide (c = r)) as [-> | Hne].
    - exists n1. split; [exact Hn1|]. assert (cn = n) by congruence. now subst cn.
    - exists cn. split; [|reflexivity]. now rewrite Off1. }
  split.
  - intros i c cn p Hi Hc Hp. simpl.
    assert (Hlt : (i < length (Priors n2))%nat)
      by (rewrite PR2, PR1; eapply lookup_lt_Some; eauto).
    destruct (Hplays c cn Hc) as (cn1 & Hcn1 & Epl).
    assert (L1 : length (_childWinRates n1) = length (_childWinRates n))
      by (rewrite E1; unfold refreshed_rates; apply length_imap).
    assert (L2 : length (_childPlays n2) = length (_childPlays n1))
      by (rewrite E2; unfold refreshed_plays; apply length_imap).
    rewrite !lookup_zip_with, W2, PR2, PR1, Hp, PL2, PL1.
    rewrite E1, (refreshed_rates_child h cs _ i c cn Hi Hc)
      by (rewrite <- L1, <- W2; lia).
    rewrite E2, (refreshed_plays_child h1 cs _ i c cn1 Hi Hcn1)
      by (rewrite <- L2; lia).
    simpl. now rewrite Epl.
  - intros i w v p Hi Hw Hv Hp. simpl.
    rewrite !lookup_zip_with, W2, PR2, PR1, Hp, PL2, PL1.
    rewrite E1, (refreshed_rates_other h cs _ i Hi), Hw.
    rewrite E2, (refreshed_plays_other h1 cs _ i Hi), P1, Hv. reflexivity.
Qed.

End FormulaFacts.

Section EngineFacts.

Context {GameState PlayerId : Type}.
Context `{!StateOps GameState PlayerId} `{!Extension GameState} `{!Oracle}.

Implicit Types (h hx : list (Node GameState)) (n nx : Node GameState).

(** ** The greedy selection *)

(** X5.  When [_selectAction(root, False)] returns, the store is the one
    [ChildWinRates] leaves, and the action is the first index at which the
    win rates multiplied by the mask take their maximum; when that maximum
    is positive the action is legal. *)
Theorem selectAction_greedy (e : MCTS) h (clk root : nat) h' (a : nat) :
  _selectAction e h clk root false = Ok (h', a) ->
  ChildWinRates h root = Ok h' /\
  exists n' mx,
    h' !! root = Some n' /\
    first_max (masked_rates n') a mx /\
    (0 < mx -> LegalActions n' !! a = Some true).
Proof.
  unfold _selectAction. intros Hrun.
  apply bind_Ok in Hrun as (n & Hn & Hrun).
  destruct (Children n); [|discriminate]. simpl in Hrun.
  apply bind_Ok in Hrun as (h1 & H1 & Hrun).
  apply bind_Ok in Hrun as (n1 & Hn1 & Hrun). apply get_inv in Hn1.
  apply bind_Ok in Hrun as (masked & Hm & Hrun). apply np_zip_Ok in Hm as [Hlen ->].
  apply bind_Ok in Hrun as (a0 & Ha & Hrun). inversion Hrun; subst h1 a0.
  split; [exact H1|].
  destruct (np_argmax_first_max _ _ Ha) as (mx & Hfm).
  exists n1, mx. split; [exact Hn1|]. split; [exact Hfm|].
  intros Hpos. destruct Hfm as (Ha' & _).
  apply lookup_zip_with_Some in Ha' as (w & mk & -> & Hw & Hmk).
  rewrite list_lookup_fmap in Hmk.
  destruct (LegalActions n1 !! a) as [[|]|]; simpl in Hmk; try discriminate.
  - reflexivity.
  - inversion Hmk; subst mk. exfalso.
    assert (E : w * 0 == 0) by ring. rewrite E in Hpos. now apply Qlt_irrefl in Hpos.
Qed.

(** ** Serialization *)

(** X6.  [__getstate__] raises [KeyError] exactly when the engine has no
    [Pool] attribute, which [__init__] creates exactly for more than one
    thread; otherwise it returns the attributes of the engine without
    [Pool], every other attribute as it is. *)
Theorem getstate_drops_only_pool (e : MCTS) :
  (Pool e = None -> MCTS_getstate (GameState := GameState) e = Raise (KeyError "Pool")) /\
  (forall p, Pool e = Some p ->
     exists d,
       MCTS_getstate (GameState := GameState) e = Ok d /\
       d !! "Pool" = None /\
       forall k, k <> "Pool" -> d !! k = MCTS_dict (GameState := GameState) e !! k) /\
  (forall rate tl pl threads,
     Pool (MCTS_init rate tl pl threads) = None <-> (threads <= 1)%Z).
Proof.
  split; [|split].
  - intros Hp. unfold MCTS_getstate, MCTS_dict. rewrite Hp. reflexivity.
  - intros p Hp. unfold MCTS_getstate.
    assert (Hin : is_Some (MCTS_dict (GameState := GameState) e !! "Pool")).
    { unfold MCTS_dict. rewrite Hp, lookup_insert_eq. eauto. }
    destruct Hin as [v Hv]. rewrite Hv. eexists. split; [reflexivity|].
    split; [apply lookup_delete_eq|]. intros k Hk. now apply lookup_delete_ne.
  - intros rate tl pl threads. unfold MCTS_init. simpl.
    destruct (Z.ltb_spec 1 threads); split; intros; try discriminate; try lia; reflexivity.
Qed.

(** ** The search loop *)

(** X7.  The loop of [_runMCTS] ends only on a spent budget: when it
    returns, the last reading of the clock was not before [endTime], or the
    root has at least [nPlays] visits.  Without either budget it does not
    return. *)
Theorem search_loop_spends_budget (fuel : nat) :
  forall h (clk root : nat) (endTime : option Q) (nPlays : option Z) h' (clk' : nat),
    search_loop fuel h clk root endTime nPlays = Ok (h', clk') ->
    (exists t k, endTime = Some t /\ clk' = S k /\ t <= time_time k) \/
    (exists p n, nPlays = Some p /\ h' !! root = Some n /\ (p <= Z.of_nat (Plays n))%Z).
Proof.
  induction fuel as [|fuel IH]; intros h clk root endTime nPlays h' clk' Hrun;
    [discriminate|].
  simpl in Hrun.
  destruct endTime as [t|]; simpl in Hrun.
  - destruct (Qlt_bool (time_time clk) t) eqn:Ht.
    + apply bind_Ok in Hrun as (n & Hn & Hrun). apply get_inv in Hn.
      destruct nPlays as [p|].
      * destruct (Z.ltb_spec (Z.of_nat (Plays n)) p).
        -- apply bind_Ok in Hrun as (h1 & _ & Hrun). exact (IH _ _ _ _ _ _ _ Hrun).
        -- inversion Hrun; subst. right. exists p, n. auto.
      * apply bind_Ok in Hrun as (h1 & _ & Hrun). exact (IH _ _ _ _ _ _ _ Hrun).
    + inversion Hrun; subst. left. exists t, clk. split; [reflexivity|].
      split; [reflexivity|]. unfold Qlt_bool in Ht.
      apply Bool.negb_false_iff in Ht. now apply Qle_bool_iff in Ht.
  - apply bind_Ok in Hrun as (n & Hn & Hrun). apply get_inv in Hn.
    destruct nPlays as [p|].
    + destruct (Z.ltb_spec (Z.of_nat (Plays n)) p).
      * apply bind_Ok in Hrun as (h1 & _ & Hrun). exact (IH _ _ _ _ _ _ _ Hrun).
      * inversion Hrun; subst. right. exists p, n. auto.
    + apply bind_Ok in Hrun as (h1 & _ & Hrun). exact (IH _ _ _ _ _ _ _ Hrun).
Qed.

(** ** The truncation at the end of [_runMCTS] *)

Lemma same_but_children_refl n : same_but_children n n.
Proof. unfold same_but_children. tauto. Qed.

Lemma kill_children_loop (cs : list (option nat)) :
  forall h h',
    for_each kill_children cs h = Ok h' ->
    length h' = length h /\
    forall x nx, h !! x = Some nx ->
      exists nx',
        h' !! x = Some nx' /\ same_but_children nx nx' /\
        (Some x ∈ cs -> Children nx' = None) /\
        (Some x ∉ cs -> nx' = nx).
Proof.
  induction cs as [|c cs IH]; intros h h' Hrun; simpl in Hrun.
  - inversion Hrun; subst. split; [reflexivity|]. intros x nx Hx. exists nx.
    split; [exact Hx|]. split; [apply same_but_children_refl|].
    split; [intros Hin; now apply elem_of_nil in Hin | reflexivity].
  - apply bind_Ok in Hrun as (h1 & Hk & Hrun).
    destruct (IH _ _ Hrun) as (Hlen & Hall).
    destruct c as [cr|]; simpl in Hk.
    + apply update_inv in Hk as (ncr & Hcr & ->).
      split; [now rewrite Hlen, length_insert|].
      intros x nx Hx. destruct (decide (x = cr)) as [-> | Hne].
      * assert (nx = ncr) by congruence. subst nx.
        destruct (Hall cr (set_Children None ncr)) as (nx' & Hx' & Hs & Hin & Hout).
        { apply list_lookup_insert_eq. eapply lookup_lt_Some; eauto. }
        exists nx'. split; [exact Hx'|]. split.
        { unfold same_but_children in *. simpl in Hs. tauto. }
        split.
        -- intros _. destruct (decide (Some cr ∈ cs)) as [Hi | Hni]; [auto|].
           now rewrite (Hout Hni).
        -- intros Hn. exfalso. apply Hn, list_elem_of_here.
      * destruct (Hall x nx) as (nx' & Hx' & Hs & Hin & Hout).
        { rewrite list_lookup_insert_ne; [exact Hx | congruence]. }
        exists nx'. split; [exact Hx'|]. split; [exact Hs|]. split.
        -- intros Hi. apply Hin. apply elem_of_cons in Hi as [Hi | Hi]; [congruence | exact Hi].
        -- intros Hn. apply Hout. intros Hi. apply Hn. now apply list_elem_of_further.
    + inversion Hk; subst h1. split; [exact Hlen|].
      intros x nx Hx. destruct (Hall x nx Hx) as (nx' & Hx' & Hs & Hin & Hout).
      exists nx'. split; [exact Hx'|]. split; [exact Hs|]. split.
      * intros Hi. apply Hin. apply elem_of_cons in Hi as [Hi | Hi]; [discriminate | exact Hi].
      * intros Hn. apply Hout. intros Hi. apply Hn. now apply list_elem_of_further.
Qed.

(** X8.  [_runMCTS] hands back the immediate results only: when it
    returns, every child of the root has [Children = None]; apart from that
    the store is the one the search loop left, object by object, and an
    object that is no child of the root is untouched. *)
Theorem runMCTS_truncates (fuel : nat) h (clk root : nat) (endTime : option Q)
    (nPlays : option Z) h' (clk' : nat) :
  _runMCTS fuel h clk root endTime nPlays = Ok (h', clk') ->
  exists hs n cs,
    search_loop fuel h clk root endTime nPlays = Ok (hs, clk') /\
    hs !! root = Some n /\ Children n = Some cs /\
    length h' = length hs /\
    forall x nx, hs !! x = Some nx ->
      exists nx',
        h' !! x = Some nx' /\ same_but_children nx nx' /\
        (Some x ∈ cs -> Children nx' = None) /\
        (Some x ∉ cs -> nx' = nx).
Proof.
  unfold _runMCTS. intros Hrun.
  apply bind_Ok in Hrun as ([hs c1] & Hs & Hrun). simpl in Hrun.
  apply bind_Ok in Hrun as (n & Hn & Hrun). apply get_inv in Hn.
  destruct (Children n) as [cs|] eqn:Hcs; [|discriminate].
  apply bind_Ok in Hrun as (hk & Hk & Hrun). inversion Hrun; subst hk c1.
  destruct (kill_children_loop cs hs h' Hk) as (Hlen & Hall).
  exists hs, n, cs. auto.
Qed.

End EngineFacts.

Section TreeFacts.

Context {GameState PlayerId : Type} `{!StateOps GameState PlayerId}.

Implicit Types (h hx hc : list (Node GameState)) (n m tg : Node GameState).

(** ** What a merge leaves alone *)

(** X9.  [_mergeAll] creates no object, keeps the store a forest, and
    changes the statistics of no object that is not below the target, the
    target apart: the worker roots and everything beside or above the target
    keep their [Plays] and [Value]. *)
Theorem mergeAll_touches_only_below (level : nat -> nat) (fuel : nat) h (target : nat)
    (trees : list (option nat)) h' :
  graded level h -> same_level level target trees ->
  _mergeAll fuel h target trees = Ok h' ->
  length h' = length h /\ graded level h' /\
  forall r, r <> target -> (level r <= level target)%nat ->
            stats_at h' r = stats_at h r.
Proof.
  intros Hg Hl Hrun.
  destruct (mergeAll_frame level fuel h target trees h' Hg Hl Hrun) as (Hg' & Hlen & Hfr & _).
  auto.
Qed.

(** ** The adoption of the first worker's children *)

Lemma continued_head h (trees : list (option nat)) :
  forall t rest,
    continued h trees = Ok (t :: rest) ->
    exists pre post tn cs,
      trees = map Some pre ++ Some t :: post /\
      (forall p, p ∈ pre -> exists pn, h !! p = Some pn /\ Children pn = None) /\
      h !! t = Some tn /\ Children tn = Some cs /\
      continued h post = Ok rest.
Proof.
  induction trees as [|x trees IH]; intros t rest Hc; simpl in Hc; [discriminate|].
  destruct x as [tr|]; [|discriminate].
  apply bind_Ok in Hc as (tn & Htn & Hc). apply get_inv in Htn.
  apply bind_Ok in Hc as (rest0 & Hrest & Hc).
  destruct (Children tn) as [cs|] eqn:Hcs.
  - inversion Hc; subst. exists [], trees, tn, cs. split; [reflexivity|].
    split; [intros p Hp; now apply elem_of_nil in Hp | auto].
  - inversion Hc; subst rest0.
    destruct (IH _ _ Hrest) as (pre & post & tn' & cs' & -> & Hpre & Ht & Hcs' & Hpost).
    exists (tr :: pre), post, tn', cs'. split; [reflexivity|]. split; [|auto].
    intros p Hp. apply elem_of_cons in Hp as [-> | Hp]; [eauto | auto].
Qed.

(** The trees that still have children are the same in two stores that
    agree on the [Children] of every object. *)
Lemma continued_same_children h h1 (trees : list (option nat)) :
  (forall x nx1, h1 !! x = Some nx1 ->
     exists nx, h !! x = Some nx /\ Children nx1 = Children nx) ->
  forall conts, continued h1 trees = Ok conts -> continued h trees = Ok conts.
Proof.
  intros Hback. induction trees as [|x trees IH]; intros conts Hc; simpl in *; [exact Hc|].
  destruct x as [tr|]; [|discriminate].
  apply bind_Ok in Hc as (tn1 & Htn1 & Hc). apply get_inv in Htn1.
  apply bind_Ok in Hc as (rest0 & Hrest & Hc).
  destruct (Hback _ _ Htn1) as (tn & Htn & E).
  rewrite (get_Ok _ _ _ Htn). simpl. rewrite (IH _ Hrest). simpl.
  now rewrite <- E.
Qed.

Lemma continued_nil h (trees : list (option nat)) :
  continued h trees = Ok [] ->
  forall t, Some t ∈ trees -> exists tn, h !! t = Some tn /\ Children tn = None.
Proof.
  induction trees as [|x trees IH]; intros Hc t Ht; simpl in Hc.
  - now apply elem_of_nil in Ht.
  - destruct x as [tr|]; [|discriminate].
    apply bind_Ok in Hc as (tn & Htn & Hc). apply get_inv in Htn.
    apply bind_Ok in Hc as (rest0 & Hrest & Hc).
    destruct (Children tn) as [cs|] eqn:Hcs; inversion Hc; subst rest0.
    apply elem_of_cons in Ht as [Ht | Ht]; [inversion Ht; subst; eauto | auto].
Qed.

Lemma reparent_loop_parents (target : nat) (cs : list (option nat)) :
  forall h h',
    for_each (reparent target) cs h = Ok h' ->
    (forall x nx, h !! x = Some nx -> Parent nx = Some target ->
       exists nx', h' !! x = Some nx' /\ Parent nx' = Some target) /\
    (forall c, Some c ∈ cs -> exists cn, h' !! c = Some cn /\ Parent cn = Some target).
Proof.
  induction cs as [|c cs IH]; intros h h' Hrun; simpl in Hrun.
  - inversion Hrun; subst. split; [eauto|]. intros c Hc. now apply elem_of_nil in Hc.
  - apply bind_Ok in Hrun as (h1 & Hstep & Hrun).
    destruct (IH _ _ Hrun) as (Hkeep & Hset).
    destruct c as [cr|]; simpl in Hstep.
    + apply update_inv in Hstep as (ncr & Hcr & ->).
      assert (Hcr' : <[cr := set_Parent (Some target) ncr]> h !! cr
                     = Some (set_Parent (Some target) ncr)).
      { apply list_lookup_insert_eq. eapply lookup_lt_Some; eauto. }
      split.
      * intros x nx Hx Hp. destruct (decide (x = cr)) as [-> | Hne].
        -- eapply Hkeep; [exact Hcr' | reflexivity].
        -- eapply Hkeep; [|exact Hp]. rewrite list_lookup_insert_ne; [exact Hx | congruence].
      * intros c Hc. apply elem_of_cons in Hc as [Hc | Hc]; [|auto].
        inversion Hc; subst c. eapply Hkeep; [exact Hcr' | reflexivity].
    + inversion Hstep; subst h1. split; [exact Hkeep|].
      intros c Hc. apply elem_of_cons in Hc as [Hc | Hc]; [discriminate | auto].
Qed.

(** X10.  The head of [_mergeAll] on a target whose children were cut off
    ([Children is None]).  When no tree has children the target gets none
    either.  Otherwise the first tree that has children gives them away:
    the target holds its list of children, the tree itself is left with
    [None], every child in the list has the target as its [Parent], and the
    loop goes on with the trees after it that have children, in their
    order, and with no other tree. *)
Theorem merge_head_adopts h (target : nat) (trees : list (option nat)) tg hc
    (oc : option (list nat)) :
  h !! target = Some tg -> Children tg = None ->
  merge_head h target trees = Ok (hc, oc) ->
  match oc with
  | None =>
      (forall t, Some t ∈ trees -> exists tn, h !! t = Some tn /\ Children tn = None) /\
      exists tg', hc !! target = Some tg' /\ Children tg' = None
  | Some rest =>
      exists pre post t tn cs tg' tn',
        trees = map Some pre ++ Some t :: post /\
        (forall p, p ∈ pre -> exists pn, h !! p = Some pn /\ Children pn = None) /\
        h !! t = Some tn /\ Children tn = Some cs /\
        hc !! target = Some tg' /\ Children tg' = Some cs /\
        hc !! t = Some tn' /\ Children tn' = None /\
        (forall c, Some c ∈ cs -> exists cn, hc !! c = Some cn /\ Parent cn = Some target) /\
        continued h post = Ok rest
  end.
Proof.
  intros Htg Hnone Hrun. unfold merge_head in Hrun.
  apply bind_Ok in Hrun as (h1 & Hadd & Hrun).
  destruct (add_stats_loop_frame _ _ _ _ Hadd) as (Hlen1 & Hoff1 & Hat1).
  destruct (Hat1 _ Htg) as (tg1 & Htg1 & Hsh).
  assert (Hnone1 : Children tg1 = None)
    by (destruct Hsh as (_ & _ & -> & _); exact Hnone).
  assert (Hback : forall x nx1, h1 !! x = Some nx1 ->
                    exists nx, h !! x = Some nx /\ Children nx1 = Children nx).
  { intros x nx1 Hx. destruct (decide (x = target)) as [-> | Hne].
    - exists tg. split; [exact Htg|]. assert (nx1 = tg1) by congruence. subst nx1.
      now rewrite Hnone1, Hnone.
    - exists nx1. split; [|reflexivity]. now rewrite <- Hoff1. }
  apply bind_Ok in Hrun as (conts & Hcont & Hrun).
  destruct conts as [|t rest].
  - inversion Hrun; subst hc oc. split; [|eauto].
    intros t Ht. destruct (continued_nil _ _ Hcont t Ht) as (tn1 & Htn1 & Hc1).
    destruct (Hback _ _ Htn1) as (tn & Htn & E). exists tn. split; [exact Htn|]. congruence.
  - apply bind_Ok in Hrun as (tg0 & Htg0 & Hrun). apply get_inv in Htg0.
    assert (tg0 = tg1) by congruence. subst tg0. rewrite Hnone1 in Hrun.
    apply bind_Ok in Hrun as (tn1 & Htn1 & Hrun). apply get_inv in Htn1.
    destruct (continued_head _ _ _ _ Hcont)
      as (pre & post & tn1' & cs & Etrees & Hpre & Htn1' & Hcs & Hpost).
    assert (tn1' = tn1) by congruence. subst tn1'.
    assert (Hne : t <> target) by (intros ->; congruence).
    apply bind_Ok in Hrun as (h2 & Hh2 & Hrun).
    apply update_inv in Hh2 as (tg2 & Htg2 & ->).
    assert (tg2 = tg1) by congruence. subst tg2.
    apply bind_Ok in Hrun as (h3 & Hh3 & Hrun).
    apply update_inv in Hh3 as (tn2 & Htn2 & ->).
    rewrite list_lookup_insert_ne in Htn2 by congruence.
    assert (tn2 = tn1) by congruence. subst tn2.
    pose proof (lookup_lt_Some _ _ _ Htg1) as Hlt_tg.
    pose proof (lookup_lt_Some _ _ _ Htn1) as Hlt_t.
    set (h3 := <[t := set_Children None tn1]>
                 (<[target := set_Children (Children tn1) tg1]> h1)) in *.
    assert (H3tg : h3 !! target = Some (set_Children (Children tn1) tg1)).
    { unfold h3. rewrite list_lookup_insert_ne by congruence.
      now apply list_lookup_insert_eq. }
    assert (H3t : h3 !! t = Some (set_Children None tn1)).
    { unfold h3. apply list_lookup_insert_eq. now rewrite length_insert. }
    apply bind_Ok in Hrun as (tg3 & Htg3 & Hrun). apply get_inv in Htg3.
    assert (tg3 = set_Children (Children tn1) tg1) by congruence. subst tg3.
    simpl in Hrun. rewrite Hcs in Hrun. simpl in Hrun.
    apply bind_Ok in Hrun as (h4 & Hh4 & Hrun). inversion Hrun; subst hc oc.
    destruct (reparent_loop_keeps _ _ _ _ Hh4) as [Hl4 Hk4].
    destruct (reparent_loop_parents _ _ _ _ Hh4) as (_ & Hpar).
    assert (Hfwd : forall x nx, h3 !! x = Some nx ->
                     exists nx', h4 !! x = Some nx' /\ Children nx' = Children nx).
    { intros x nx Hx.
      destruct (lookup_lt_is_Some_2 h4 x) as [nx' Hx'].
      { rewrite Hl4. eapply lookup_lt_Some; eauto. }
      exists nx'. split; [exact Hx'|].
      destruct (Hk4 _ _ Hx') as (nx0 & Hx0 & Hc & _). congruence. }
    destruct (Hfwd _ _ H3tg) as (tg' & Htg' & Ctg').
    destruct (Hfwd _ _ H3t) as (tn' & Htn' & Ctn').
    destruct (Hback _ _ Htn1) as (tn & Htn & Ctn).
    exists pre, post, t, tn, cs, tg', tn'.
    split; [exact Etrees|]. split.
    { intros p Hp. destruct (Hpre p Hp) as (pn1 & Hpn1 & Cp).
      destruct (Hback _ _ Hpn1) as (pn & Hpn & E). exists pn. split; [exact Hpn|]. congruence. }
    split; [exact Htn|]. split; [congruence|].
    split; [exact Htg'|]. split; [rewrite Ctg'; simpl; exact Hcs|].
    split; [exact Htn'|]. split; [rewrite Ctn'; reflexivity|].
    split; [exact Hpar|].
    exact (continued_same_children h h1 post Hback rest Hpost).
Qed.

End TreeFacts.

Section PathFacts.

Context {GameState PlayerId : Type} `{!StateOps GameState PlayerId}.

Implicit Types (h hx : list (Node GameState)) (n m : Node GameState).

(** ** When [BackProp] returns *)

Lemma chain_insert_same_parent h (r : nat) n m :
  h !! r = Some n -> Parent m = Parent n ->
  forall x path, chain (<[r := m]> h) x path -> chain h x path.
Proof.
  intros Hr Hp x path Hc.
  induction Hc as [x nx Hx Hnone | x nx p path Hx Hsome Hc IH].
  - destruct (decide (x = r)) as [-> | Hne].
    + rewrite list_lookup_insert_eq in Hx by (eapply lookup_lt_Some; eauto).
      inversion Hx; subst nx. apply (chain_top h r n Hr). now rewrite <- Hp.
    + rewrite list_lookup_insert_ne in Hx by congruence.
      eapply chain_top; eauto.
  - destruct (decide (x = r)) as [-> | Hne].
    + rewrite list_lookup_insert_eq in Hx by (eapply lookup_lt_Some; eauto).
      inversion Hx; subst nx. apply (chain_up h r n p path Hr); [now rewrite <- Hp | exact IH].
    + rewrite list_lookup_insert_ne in Hx by congruence.
      eapply chain_up; eauto.
Qed.

(** X11.  [BackProp] returns only from a leaf whose chain of parents ends:
    when it returns with the fuel [fuel], the parents of the leaf form a
    path of at most [fuel] nodes up to a node without a parent.  On a chain
    of parents that runs in a circle it does not return. *)
Theorem BackProp_returns_only_on_finite_chain (fuel : nat) :
  forall h (leaf : nat) (stateValue : Q) (playerForValue : PlayerId) h',
    BackProp fuel h leaf stateValue playerForValue = Ok h' ->
    exists path, chain h leaf path /\ (length path <= fuel)%nat.
Proof.
  induction fuel as [|fuel IH]; intros h leaf sv pfv h' Hrun; [discriminate|].
  simpl in Hrun.
  apply bind_Ok in Hrun as (n & Hn & Hrun). apply get_inv in Hn.
  destruct (Parent n) as [p|] eqn:Hp.
  - apply bind_Ok in Hrun as (pn & Hpn & Hrun).
    destruct (Player (State pn)) as [pl|]; [|discriminate].
    apply bind_Ok in Hrun as (n1 & Hn1 & Hrun). apply get_inv in Hn1.
    pose proof (lookup_lt_Some _ _ _ Hn) as Hlt.
    rewrite list_lookup_insert_eq in Hn1 by exact Hlt. inversion Hn1; subst n1.
    rewrite list_insert_insert_eq in Hrun.
    destruct (IH _ _ _ _ _ Hrun) as (path & Hc & Hl).
    exists (leaf :: path). split; [|simpl; lia].
    eapply chain_up; [exact Hn | exact Hp |].
    eapply chain_insert_same_parent; [exact Hn | | exact Hc]. reflexivity.
  - exists [leaf]. split; [|simpl; lia]. eapply chain_top; eauto.
Qed.

(** ** The statistics stay within bounds *)

Lemma Qnat_succ (k : nat) : Qnat (k + 1) == Qnat k + 1.
Proof.
  unfold Qnat. rewrite Nat2Z.inj_add, inject_Z_plus. reflexivity.
Qed.

(** X12.  When every backed-up value lies between 0 and 1, [BackProp] keeps
    [0 <= Value <= Plays] at every object of the store, so that every win
    rate stays between 0 and 1. *)
Theorem BackProp_keeps_value_bounds (fuel : nat) h (leaf : nat) (path : list nat)
    (stateValue : Q) (playerForValue : PlayerId) :
  0 <= stateValue -> stateValue <= 1 ->
  (forall r n, h !! r = Some n -> value_bounded n) ->
  chain h leaf path ->
  Forall (has_player h) (tail path) ->
  (length path <= fuel)%nat ->
  exists h',
    BackProp fuel h leaf stateValue playerForValue = Ok h' /\
    forall r n', h' !! r = Some n' -> value_bounded n'.
Proof.
  intros H0 H1 Hb Hc Hpl Hfuel.
  destruct (BackProp_chain path fuel h leaf stateValue playerForValue Hc Hpl Hfuel)
    as (h' & Hrun & Hlen & Hoff & Hon).
  exists h'. split; [exact Hrun|]. intros r n' Hr'.
  destruct (decide (r ∈ path)) as [Hin | Hout].
  - destruct (lookup_lt_is_Some_2 h r) as [n Hr].
    { rewrite <- Hlen. eapply lookup_lt_Some; eauto. }
    destruct (Hon r n Hin Hr) as (n'' & Hr'' & Hplays & _ & Hval).
    assert (n'' = n') by congruence. subst n''.
    destruct (Hb r n Hr) as [Hlo Hhi]. unfold value_bounded.
    rewrite Hplays. pose proof (Qnat_succ (Plays n)) as Es.
    destruct (Parent n) as [p|].
    + destruct Hval as (pn & pl & _ & _ & ->).
      destruct (player_eqb pl playerForValue); split; lra.
    + rewrite Hval. split; lra.
  - rewrite (Hoff r Hout) in Hr'. eapply Hb; eauto.
Qed.

(** ** A parent without a player *)

(** X13.  When a node above the leaf has a state without the [Player]
    attribute, [BackProp] raises [AttributeError] and returns no store. *)
Theorem BackProp_raises_without_player (path : list nat) :
  forall (fuel : nat) h (leaf : nat) (stateValue : Q) (playerForValue : PlayerId),
    chain h leaf path ->
    (length path <= fuel)%nat ->
    (exists r n, r ∈ tail path /\ h !! r = Some n /\ Player (State n) = None) ->
    BackProp fuel h leaf stateValue playerForValue = Raise AttributeError.
Proof.
  induction path as [|x tl IH]; intros fuel h leaf sv pfv Hc Hfuel Hbad.
  { apply chain_head in Hc as [? ?]. discriminate. }
  pose proof (chain_NoDup _ _ _ Hc) as Hnd.
  destruct fuel as [|fuel]; [simpl in Hfuel; lia|].
  destruct (chain_head _ _ _ Hc) as [tl0 E]. injection E as -> <-.
  destruct Hbad as (r & nr & Hr_in & Hr & Hnp). simpl in Hr_in.
  inversion Hc as [y n Hn Hp | y n p path' Hn Hp Hc']; subst y; try subst path'.
  { subst tl. now apply elem_of_nil in Hr_in. }
  apply NoDup_cons in Hnd as [Hnotin Hnd'].
  destruct (chain_head _ _ _ Hc') as [tl' ->].
  assert (Hne : leaf <> p) by (intros ->; apply Hnotin, list_elem_of_here).
  pose proof (lookup_lt_Some _ _ _ Hn) as Hlt.
  assert (Hpn : exists pn, h !! p = Some pn).
  { inversion Hc'; eauto. }
  destruct Hpn as [pn Hpn].
  simpl. rewrite (get_Ok _ _ _ Hn). simpl. rewrite Hp.
  unfold get at 1. rewrite list_lookup_insert_ne by exact Hne. rewrite Hpn. simpl.
  destruct (Player (State pn)) as [pl|] eqn:Hpl; [|reflexivity].
  unfold get at 1. rewrite list_lookup_insert_eq by exact Hlt. simpl.
  rewrite list_insert_insert_eq.
  apply elem_of_cons in Hr_in as [-> | Hr_in]; [congruence|].
  apply IH.
  - eapply chain_agree; [exact Hc'|]. intros y Hy.
    apply list_lookup_insert_ne. intros ->. now apply Hnotin.
  - simpl in *. lia.
  - exists r, nr. split; [exact Hr_in|]. split; [|exact Hnp].
    rewrite list_lookup_insert_ne; [exact Hr|].
    intros ->. apply Hnotin. now apply list_elem_of_further.
Qed.

(** ** Back to the top: [ResetRoot] *)

Lemma set_Root_same (e : MCTS) (r : option nat) : Root e = r -> set_Root r e = e.
Proof. destruct e. simpl. now intros ->. Qed.

Lemma ResetRoot_loop_top (path : list nat) :
  forall (fuel : nat) h (e : MCTS) (r : nat),
    Root e = Some r -> chain h r path -> (length path <= fuel)%nat ->
    ResetRoot_loop fuel h e = Ok (set_Root (last path) e).
Proof.
  induction path as [|x tl IH]; intros fuel h e r Hroot Hc Hfuel.
  { apply chain_head in Hc as [? ?]. discriminate. }
  destruct fuel as [|fuel]; [simpl in Hfuel; lia|].
  simpl. rewrite Hroot.
  inversion Hc as [y n Hn Hp | y n p path' Hn Hp Hc']; subst.
  - rewrite (get_Ok _ _ _ Hn). simpl. rewrite Hp. simpl.
    now rewrite set_Root_same.
  - rewrite (get_Ok _ _ _ Hn). simpl. rewrite Hp.
    destruct (chain_head _ _ _ Hc') as [tl' ->].
    rewrite (IH fuel h (set_Root (Some p) e) p); [reflexivity | reflexivity | exact Hc' |].
    simpl in *. lia.
Qed.

(** X14.  [ResetRoot] moves the root to the top of its chain of parents:
    with a root whose parents form the path [path], the new root is the last
    node of the path, which has no parent; nothing else of the engine and
    nothing of the store changes.  Without a root it does nothing. *)
Theorem ResetRoot_reaches_top (fuel : nat) h (e : MCTS) (r : nat) (path : list nat) :
  Root e = Some r -> chain h r path -> (length path <= fuel)%nat ->
  exists top n,
    last path = Some top /\ h !! top = Some n /\ Parent n = None /\
    ResetRoot fuel h e = Ok (set_Root (Some top) e).
Proof.
  intros Hroot Hc Hfuel.
  assert (Htop : exists top n, last path = Some top /\ h !! top = Some n /\ Parent n = None).
  { clear Hroot Hfuel. induction Hc as [x n Hn Hp | x n p path Hn Hp Hc IH].
    - exists x, n. auto.
    - destruct IH as (top & nt & Hl & Ht & Hpt). exists top, nt.
      split; [|auto]. destruct (chain_head _ _ _ Hc) as [tl ->]. exact Hl. }
  destruct Htop as (top & n & Hl & Ht & Hp).
  exists top, n. repeat (split; [assumption|]).
  unfold ResetRoot. rewrite Hroot.
  rewrite (ResetRoot_loop_top path fuel h e r Hroot Hc Hfuel). now rewrite Hl.
Qed.

(** X15.  A step down and back: on a root without a parent, [_moveRoot] to
    the first child with the given state followed by [ResetRoot] gives the
    engine back as it was, when that child has the root as its [Parent]. *)
Theorem moveRoot_then_ResetRoot (fuel : nat) h (e : MCTS) (state : GameState)
    (r c : nat) n cn (cs : list (option nat)) :
  Root e = Some r -> h !! r = Some n -> Parent n = None ->
  Children n = Some cs -> first_match h state cs c ->
  h !! c = Some cn -> Parent cn = Some r ->
  (2 <= fuel)%nat ->
  bind (_moveRoot h e state) (ResetRoot fuel h) = Ok e.
Proof.
  intros Hroot Hn Hp Hcs Hfm Hc Hpc Hfuel.
  unfold _moveRoot. rewrite Hroot, (get_Ok _ _ _ Hn). simpl. rewrite Hcs.
  rewrite (find_child_first _ _ _ _ Hfm). simpl.
  unfold ResetRoot. simpl.
  rewrite (ResetRoot_loop_top [c; r] fuel h (set_Root (Some c) e) c).
  - simpl. f_equal. destruct e. simpl in *. now subst.
  - reflexivity.
  - eapply chain_up; [exact Hc | exact Hpc |]. eapply chain_top; eauto.
  - simpl. lia.
Qed.

(** ** [MoveRoot] stays inside the tree *)

Lemma descends_trans h (a b c : nat) :
  descends h a b -> descends h b c -> descends h a c.
Proof.
  induction 1 as [|r n cs x r' Hr Hcs Hx Hd IH]; intros Hbc; [exact Hbc|].
  eapply descends_child; eauto.
Qed.

Lemma find_child_elem h (state : GameState) (cs : list (option nat)) (c : nat) :
  find_child h state cs = Ok (Some c) -> Some c ∈ cs.
Proof.
  induction cs as [|x cs IH]; simpl; intros Hf; [discriminate|].
  destruct x as [c0|].
  - apply bind_Ok in Hf as (cn & _ & Hf).
    destruct (state_eqb (State cn) state).
    + inversion Hf; subst. apply list_elem_of_here.
    + apply list_elem_of_further. auto.
  - apply list_elem_of_further. auto.
Qed.

Lemma moveRoot_step_descends h (e e' : MCTS) (state : GameState) :
  _moveRoot h e state = Ok e' ->
  same_settings e e' /\
  (Root e' = None \/
   exists r r', Root e = Some r /\ Root e' = Some r' /\ descends h r r').
Proof.
  unfold _moveRoot, same_settings. intros Hm.
  destruct (Root e) as [r|] eqn:Hroot.
  - apply bind_Ok in Hm as (n & Hn & Hm). apply get_inv in Hn.
    destruct (Children n) as [cs|] eqn:Hcs.
    + apply bind_Ok in Hm as (found & Hf & Hm). destruct found as [c|].
      * inversion Hm; subst e'. simpl. split; [tauto|]. right.
        exists r, c. split; [reflexivity|]. split; [reflexivity|].
        eapply descends_child; [exact Hn | exact Hcs | | apply descends_here].
        eapply find_child_elem; eauto.
      * inversion Hm; subst e'. split; [tauto|]. right.
        exists r, r. repeat split; [exact Hroot | apply descends_here].
    + inversion Hm; subst e'. simpl. split; [tauto | now left].
  - inversion Hm; subst e'. split; [tauto | now left].
Qed.

(** X16.  [MoveRoot] changes nothing of the engine but the root, and the
    root it leaves is none at all or a node of the tree below the old root;
    the store is not written. *)
Theorem MoveRoot_stays_in_tree h (states : list GameState) :
  forall (e e' : MCTS),
    MoveRoot h e states = Ok e' ->
    same_settings e e' /\
    (Root e' = None \/
     exists r r', Root e = Some r /\ Root e' = Some r' /\ descends h r r').
Proof.
  unfold MoveRoot. induction states as [|s states IH]; intros e e' Hm; simpl in Hm.
  - inversion Hm; subst e'. split; [unfold same_settings; tauto|].
    destruct (Root e) as [r|] eqn:Hr; [|now left].
    right. exists r, r. repeat split. apply descends_here.
  - apply bind_Ok in Hm as (e1 & H1 & Hm).
    destruct (moveRoot_step_descends _ _ _ _ H1) as (S1 & R1).
    destruct (IH _ _ Hm) as (S2 & R2).
    split; [unfold same_settings in *; intuition congruence|].
    destruct R2 as [Hnone | (r1 & r2 & Hr1 & Hr2 & Hd2)]; [now left|].
    destruct R1 as [Hnone | (r0 & r1' & Hr0 & Hr1' & Hd1)]; [congruence|].
    assert (r1' = r1) by congruence. subst r1'.
    right. exists r0, r2. repeat split; try assumption.
    eapply descends_trans; eauto.
Qed.

(** X17.  After [DropRoot] there is nothing to move: [MoveRoot] returns the
    engine without a root, whatever the states and the store. *)
Theorem MoveRoot_after_DropRoot h (e : MCTS) (states : list GameState) :
  MoveRoot h (DropRoot e) states = Ok (DropRoot e).
Proof.
  unfold MoveRoot. induction states as [|s states IH]; simpl; [reflexivity|].
  exact IH.
Qed.

End PathFacts.

Section FindMoveFacts.

Context {GameState PlayerId : Type}.
Context `{!StateOps GameState PlayerId} `{!Extension GameState} `{!Oracle}.

Implicit Types (h : list (Node GameState)) (n : Node GameState).

Lemma FindMove_preamble_root_aux (e : MCTS) h (clk : nat) (state : GameState)
    (moveTime : option Q) (playLimit : option Z) (b : budget GameState) :
  FindMove_preamble e h clk state moveTime playLimit = Ok b ->
  Root (b_engine b) = Some (b_root b).
Proof.
  unfold FindMove_preamble. intros Hrun.
  apply bind_Ok in Hrun as ([[e1 h1] root] & Hroot & Hrun).
  apply bind_Ok in Hrun as (rn & Hrn & Hrun).
  destruct (state_eqb (State rn) state); [|discriminate]. simpl in Hrun.
  assert (Hb : b_engine b = e1 /\ b_root b = root).
  { destruct (fst match resolve moveTime (TimeLimit e) with
                  | Some m => (Some (time_time clk + m), S clk)
                  | None => (None, clk)
                  end); [inversion Hrun; now split|].
    destruct (resolve playLimit (PlayLimit e)); [inversion Hrun; now split | discriminate]. }
  destruct Hb as [-> ->].
  destruct (Root e) as [r|] eqn:Hr.
  - inversion Hroot; now subst.
  - apply bind_Ok in Hroot as (n & _ & Hroot). inversion Hroot; now subst.
Qed.

(** ** The root [FindMove] searches from *)

(** X18.  When the preconditions of [FindMove] pass, the engine has a root
    whose state equals the given state, and a budget.  An existing root is
    kept, with the store and the engine as they were; without one the root
    is a new node from [Node(state, LegalActions(state), GetPriors(state))]
    at the end of the store.  The settings of the engine do not change. *)
Theorem FindMove_preamble_root (e : MCTS) h (clk : nat) (state : GameState)
    (moveTime : option Q) (playLimit : option Z) (b : budget GameState) :
  FindMove_preamble e h clk state moveTime playLimit = Ok b ->
  Root (b_engine b) = Some (b_root b) /\
  same_settings e (b_engine b) /\
  (exists n, b_heap b !! b_root b = Some n /\ state_eqb (State n) state = true) /\
  (b_endTime b <> None \/ b_playLimit b <> None) /\
  b_playLimit b = resolve playLimit (PlayLimit e) /\
  match Root e with
  | Some r => b_root b = r /\ b_heap b = h /\ b_engine b = e
  | None =>
      b_root b = length h /\
      exists n,
        Node_init state (MCTS_LegalActions state) (MCTS_GetPriors state) = Ok n /\
        b_heap b = h ++ [n]
  end.
Proof.
  unfold FindMove_preamble. intros Hrun.
  apply bind_Ok in Hrun as ([[e1 h1] root] & Hroot & Hrun).
  apply bind_Ok in Hrun as (rn & Hrn & Hrun). apply get_inv in Hrn.
  destruct (state_eqb (State rn) state) eqn:Heq; [|discriminate]. simpl in Hrun.
  assert (Hb : b = mkBudget e1 h1
                 (snd match resolve moveTime (TimeLimit e) with
                      | Some m => (Some (time_time clk + m), S clk)
                      | None => (None, clk)
                      end) root
                 (fst match resolve moveTime (TimeLimit e) with
                      | Some m => (Some (time_time clk + m), S clk)
                      | None => (None, clk)
                      end) (resolve playLimit (PlayLimit e)) /\
               (fst match resolve moveTime (TimeLimit e) with
                    | Some m => (Some (time_time clk + m), S clk)
                    | None => (None, clk)
                    end <> None \/ resolve playLimit (PlayLimit e) <> None)).
  { destruct (resolve moveTime (TimeLimit e)) as [m|]; simpl in *.
    - inversion Hrun. split; [reflexivity | now left].
    - destruct (resolve playLimit (PlayLimit e)) as [p|]; [|discriminate].
      inversion Hrun. split; [reflexivity | now right]. }
  destruct Hb as [-> Hbudget]. simpl. clear Hrun.
  destruct (Root e) as [r|] eqn:Hr.
  - inversion Hroot; subst e1 h1 root.
    split; [exact Hr|]. split; [unfold same_settings; tauto|].
    split; [eauto|]. split; [exact Hbudget|]. auto.
  - apply bind_Ok in Hroot as (n & Hinit & Hroot). inversion Hroot; subst e1 h1 root.
    simpl. split; [reflexivity|]. split; [unfold same_settings; simpl; tauto|].
    split; [eauto|]. split; [exact Hbudget|]. split; [reflexivity|].
    split; [reflexivity|]. eauto.
Qed.

(** ** What [FindMove] hands back for the state and the value *)

(** X19.  When [FindMove] returns, the first component of the result is
    [None]: the successor state was computed by [ApplyAction] and has a
    [Player], but [_applyAction] does not return it.  The second component
    is the method [AvgValue] of the root, not a number. *)
Theorem FindMove_returns_no_state (fuel : nat) (e : MCTS) h (clk : nat)
    (state : GameState) (moveTime : option Q) (playLimit : option Z)
    (m : move GameState) :
  FindMove fuel e h clk state moveTime playLimit = Ok m ->
  m_state m = PyNone /\
  (exists r, Root (m_engine m) = Some r /\ m_value m = PyBoundMethod r "AvgValue") /\
  (exists action successor,
     MCTS_ApplyAction state action = Ok successor /\ is_Some (Player successor)).
Proof.
  unfold FindMove. intros Hrun.
  apply bind_Ok in Hrun as (b & Hb & Hrun).
  apply FindMove_preamble_root_aux in Hb.
  apply bind_Ok in Hrun as ([hs clk'] & _ & Hrun).
  apply bind_Ok in Hrun as ([h_sel action] & _ & Hrun).
  apply bind_Ok in Hrun as (s & Hs & Hrun).
  apply bind_Ok in Hrun as ([hp probs] & _ & Hrun).
  inversion Hrun; subst m. simpl. clear Hrun.
  unfold _applyAction in Hs. apply bind_Ok in Hs as (succ & Happ & Hs).
  simpl in Happ. destruct (Player succ) as [pl|] eqn:Hpl; [|discriminate].
  inversion Hs; subst s.
  split; [reflexivity|]. split; [eauto|].
  exists action, succ. split; [exact Happ|]. rewrite Hpl. eauto.
Qed.

End FindMoveFacts.

Section WorkerFacts.

Context {GameState PlayerId : Type}.
Context `{!StateOps GameState PlayerId} `{!Extension GameState} `{!Oracle}.

Implicit Types (h : list (Node GameState)) (n : Node GameState).

(** ** The roots of the workers *)

(** X20.  The first loop of [_runAsynch] gives every worker a root of its
    own: with a pool, [k] submissions add [k] new nodes for the state at the
    end of the store, each as [Node.__init__] leaves it, and list them in
    the order of submission; nothing that was in the store changes.
    Without the [Pool] attribute the first submission raises
    [AttributeError]. *)
Theorem submit_workers_fresh_roots (e : MCTS) (state : GameState) n0 (k : nat) :
  Node_init state (MCTS_LegalActions state) (MCTS_GetPriors state) = Ok n0 ->
  forall (a : nat) h (roots : list nat),
    (forall p, Pool e = Some p ->
       for_each (submit_worker e state) (seq a k) (h, roots)
       = Ok (h ++ replicate k n0, roots ++ seq (length h) k)) /\
    (Pool e = None -> (0 < k)%nat ->
       for_each (submit_worker e state) (seq a k) (h, roots) = Raise AttributeError).
Proof.
  intros Hinit. induction k as [|k IH]; intros a h roots; split.
  - intros p _. simpl. now rewrite !app_nil_r.
  - intros _ Hk. lia.
  - intros p Hp. simpl. unfold submit_worker at 1. rewrite Hinit. simpl. rewrite Hp. simpl.
    destruct (IH (S a) (h ++ [n0]) (roots ++ [length h])) as [Hok _].
    rewrite (Hok p Hp). rewrite <- !app_assoc. simpl.
    rewrite length_app. simpl. now rewrite Nat.add_1_r.
  - intros Hp _. simpl. unfold submit_worker at 1. rewrite Hinit. simpl. now rewrite Hp.
Qed.

End WorkerFacts.

Section RateFacts.

Context {GameState : Type}.

(** ** The win rate *)

(** X21.  On a node with [0 <= Value <= Plays] the win rate lies between 0
    and 1, and [AvgValue] is the same number; a node without visits has the
    win rate 0. *)
Theorem WinRate_between_0_and_1 (n : Node GameState) :
  value_bounded n ->
  0 <= WinRate n /\ WinRate n <= 1 /\ AvgValue n = WinRate n /\
  (Plays n = 0%nat -> WinRate n = 0).
Proof.
  intros [Hlo Hhi]. unfold WinRate, AvgValue.
  destruct (Nat.ltb_spec 0 (Plays n)) as [Hpos | Hzero].
  - assert (Hq : 0 < Qnat (Plays n)).
    { unfold Qnat. rewrite <- (Zlt_Qlt 0). lia. }
    split; [|split; [|split]].
    + apply Qle_shift_div_l; [exact Hq|]. now rewrite Qmult_0_l.
    + apply Qle_shift_div_r; [exact Hq|]. now rewrite Qmult_1_l.
    + reflexivity.
    + intros Hz. lia.
  - split; [apply Qle_refl|]. split; [discriminate|]. split; reflexivity.
Qed.

End RateFacts.

(** * The further properties on concrete stores *)

Lemma ChildWinRates_refresh_witness :
  exists h' n',
    ChildWinRates one_ply 0%nat = Ok h' /\ h' !! 0%nat = Some n' /\
    _childWinRates n' !! 0%nat = Some (8 / Qnat 10) /\
    _childWinRates n' !! 2%nat = Some 0.
Proof.
  destruct (ChildWinRates one_ply 0%nat) as [h'| |] eqn:Hrun;
    [|vm_compute in Hrun; discriminate|vm_compute in Hrun; discriminate].
  destruct (ChildWinRates_refresh one_ply 0%nat h' Hrun)
    as (n & n' & cs & Hn & Hcs & Hn' & _ & _ & _ & _ & Hw & Hk).
  inversion Hn; subst n. inversion Hcs; subst cs.
  exists h', n'. split; [reflexivity|]. split; [exact Hn'|]. split.
  - apply (Hw 0%nat 1%nat (toy_node 1 8 10 odd_legal (Some []) (Some 0%nat) odd_priors));
      [reflexivity | reflexivity | simpl; lia].
  - rewrite (Hk 2%nat); [reflexivity | now left].
Defined.

Lemma ChildPlays_refresh_witness :
  exists h' n',
    ChildPlays one_ply 0%nat = Ok h' /\ h' !! 0%nat = Some n' /\
    _childPlays n' !! 1%nat = Some 10%nat.
Proof.
  destruct (ChildPlays one_ply 0%nat) as [h'| |] eqn:Hrun;
    [|vm_compute in Hrun; discriminate|vm_compute in Hrun; discriminate].
  destruct (ChildPlays_refresh one_ply 0%nat h' Hrun)
    as (n & n' & cs & Hn & Hcs & Hn' & _ & _ & _ & _ & Hw & _).
  inversion Hn; subst n. inversion Hcs; subst cs.
  exists h', n'. split; [reflexivity|]. split; [exact Hn'|].
  apply (Hw 1%nat 2%nat (toy_node 2 2 10 even_legal (Some []) (Some 0%nat) even_priors));
    [reflexivity | reflexivity | simpl; lia].
Defined.

Lemma ChildProbability_rates_witness :
  exists h' probs n',
    ChildProbability one_ply 0%nat 1 = Ok (h', probs) /\ h' !! 0%nat = Some n' /\
    _childWinRates n' !! 0%nat
    = Some (8 / Qnat 10 + bonus 1 20 (3 # 5) 10).
Proof.
  destruct (ChildProbability one_ply 0%nat 1) as [[h' probs]| |] eqn:Hrun;
    [|vm_compute in Hrun; discriminate|vm_compute in Hrun; discriminate].
  destruct (ChildProbability_rates one_ply 0%nat 1 h' probs Hrun)
    as (n & n' & cs & Hn & Hcs & Hn' & _ & Hw & _).
  inversion Hn; subst n. inversion Hcs; subst cs.
  exists h', probs, n'. split; [reflexivity|]. split; [exact Hn'|].
  apply (Hw 0%nat 1%nat (toy_node 1 8 10 odd_legal (Some []) (Some 0%nat) odd_priors));
    reflexivity.
Defined.

Lemma ChildProbability_caches_only_witness :
  exists h' probs,
    ChildProbability visited_leaf 0%nat 1 = Ok (h', probs) /\
    caches_only visited_leaf h'.
Proof.
  destruct (ChildProbability visited_leaf 0%nat 1) as [[h' probs]| |] eqn:Hrun;
    [|vm_compute in Hrun; discriminate|vm_compute in Hrun; discriminate].
  exists h', probs. split; [reflexivity|].
  exact (ChildProbability_caches_only visited_leaf 0%nat 1 h' probs Hrun).
Defined.

Lemma ChildProbability_distribution_witness :
  exists h' probs t,
    ChildProbability one_ply 0%nat 1 = Ok (h', probs) /\
    legal_total probs even_legal = Some t /\ t == 1.
Proof.
  destruct (ChildProbability one_ply 0%nat 1) as [[h' probs]| |] eqn:Hrun;
    [|vm_compute in Hrun; discriminate|vm_compute in Hrun; discriminate].
  destruct (ChildProbability_distribution one_ply 0%nat 1 h' probs Hrun)
    as (n' & Hn' & Hp & Hdist).
  vm_compute in Hrun. inversion Hrun; subst h' probs. clear Hrun.
  inversion Hn'; subst n'. clear Hn'.
  destruct Hdist as [(t & Ht & Et) _].
  - vm_compute. discriminate.
  - intros i x Hi Hx. destruct i as [|[|[|i]]]; try discriminate.
    inversion Hx. reflexivity.
  - eexists _, _, t. split; [reflexivity|]. split; [exact Ht | exact Et].
Defined.

Lemma selectAction_greedy_witness :
  exists h' n' mx,
    _selectAction primed one_ply 0%nat 0%nat false = Ok (h', 0%nat) /\
    h' !! 0%nat = Some n' /\ first_max (masked_rates n') 0%nat mx /\
    LegalActions n' !! 0%nat = Some true.
Proof.
  destruct (_selectAction primed one_ply 0%nat 0%nat false) as [[h' a]| |] eqn:Hrun;
    [|vm_compute in Hrun; discriminate|vm_compute in Hrun; discriminate].
  assert (a = 0%nat) by (vm_compute in Hrun; now inversion Hrun). subst a.
  destruct (selectAction_greedy primed one_ply 0%nat 0%nat h' 0%nat Hrun)
    as (_ & n' & mx & Hn' & Hfm & Hlegal).
  exists h', n', mx. split; [reflexivity|]. split; [exact Hn'|]. split; [exact Hfm|].
  apply Hlegal. vm_compute in Hrun. inversion Hrun; subst h'. clear Hrun.
  inversion Hn'; subst n'. destruct Hfm as (Hm & _). vm_compute in Hm.
  inversion Hm. reflexivity.
Defined.

Lemma search_loop_spends_budget_witness :
  exists h' clk' n,
    search_loop 10 fresh_store 0%nat 0%nat None (Some 3%Z) = Ok (h', clk') /\
    h' !! 0%nat = Some n /\ (3 <= Z.of_nat (Plays n))%Z.
Proof.
  destruct (search_loop 10 fresh_store 0%nat 0%nat None (Some 3%Z))
    as [[h' clk']| |] eqn:Hrun;
    [|vm_compute in Hrun; discriminate|vm_compute in Hrun; discriminate].
  destruct (search_loop_spends_budget 10 _ _ _ _ _ _ _ Hrun)
    as [(t & k & Ht & _) | (p & n & Hp & Hn & Hle)]; [discriminate|].
  inversion Hp; subst p. exists h', clk', n. auto.
Defined.

Lemma runMCTS_truncates_witness :
  exists h' clk' c1 c2,
    _runMCTS 10 one_ply 0%nat 0%nat None (Some 20%Z) = Ok (h', clk') /\
    h' !! 1%nat = Some c1 /\ Children c1 = None /\
    h' !! 2%nat = Some c2 /\ Children c2 = None.
Proof.
  destruct (_runMCTS 10 one_ply 0%nat 0%nat None (Some 20%Z))
    as [[h' clk']| |] eqn:Hrun;
    [|vm_compute in Hrun; discriminate|vm_compute in Hrun; discriminate].
  destruct (runMCTS_truncates 10 _ _ _ _ _ _ _ Hrun)
    as (hs & n & cs & Hs & Hn & Hcs & _ & Hall).
  vm_compute in Hs. inversion Hs; subst hs clk'. clear Hs.
  inversion Hn; subst n. inversion Hcs; subst cs.
  edestruct (Hall 1%nat) as (c1 & Hc1 & _ & Hk1 & _); [reflexivity|].
  edestruct (Hall 2%nat) as (c2 & Hc2 & _ & Hk2 & _); [reflexivity|].
  exists h', 0%nat, c1, c2. split; [reflexivity|].
  split; [exact Hc1|]. split; [apply Hk1; repeat constructor|].
  split; [exact Hc2|]. apply Hk2; repeat constructor.
Defined.

Lemma mergeAll_touches_only_below_witness :
  exists h',
    _mergeAll 5 (workers None) 0%nat [Some 1%nat; Some 4%nat] = Ok h' /\
    length h' = 9%nat /\
    stats_at h' 4%nat = stats_at (workers None) 4%nat.
Proof.
  destruct (_mergeAll 5 (workers None) 0%nat [Some 1%nat; Some 4%nat]) as [h'| |] eqn:Hrun;
    [|vm_compute in Hrun; discriminate|vm_compute in Hrun; discriminate].
  destruct (mergeAll_touches_only_below worker_level 5 (workers None) 0%nat
              [Some 1%nat; Some 4%nat] h') as (Hlen & _ & Hfr).
  - apply gradedb_graded. reflexivity.
  - intros t Ht. apply elem_of_cons in Ht as [Ht | Ht]; [inversion Ht; reflexivity|].
    apply elem_of_cons in Ht as [Ht | Ht]; [inversion Ht; reflexivity|].
    now apply elem_of_nil in Ht.
  - exact Hrun.
  - exists h'. split; [reflexivity|]. split; [exact Hlen|].
    apply Hfr; [discriminate | simpl; lia].
Defined.

Lemma merge_head_adopts_witness :
  exists hc rest tg' c,
    merge_head (workers None) 0%nat [Some 1%nat; Some 4%nat] = Ok (hc, Some rest) /\
    hc !! 0%nat = Some tg' /\ Children tg' = Some [Some 2%nat; Some 3%nat; None] /\
    hc !! 2%nat = Some c /\ Parent c = Some 0%nat /\
    rest = [4%nat].
Proof.
  destruct (merge_head (workers None) 0%nat [Some 1%nat; Some 4%nat])
    as [[hc oc]| |] eqn:Hrun;
    [|vm_compute in Hrun; discriminate|vm_compute in Hrun; discriminate].
  pose proof (merge_head_adopts (workers None) 0%nat [Some 1%nat; Some 4%nat] _ hc oc
                eq_refl eq_refl Hrun) as Had.
  destruct oc as [rest|]; [|vm_compute in Hrun; discriminate].
  destruct Had as (pre & post & t & tn & cs & tg' & tn' & Etrees & Hpre & Ht & Hcs
                   & Htg' & Ctg' & _ & _ & Hpar & Hrest).
  destruct pre as [|p pre].
  - simpl in Etrees. inversion Etrees; subst t post.
    inversion Ht; subst tn. inversion Hcs; subst cs.
    destruct (Hpar 2%nat) as (c & Hc & Hp); [repeat constructor|].
    exists hc, rest, tg', c. split; [reflexivity|].
    repeat (split; [assumption|]).
    vm_compute in Hrest. now inversion Hrest.
  - simpl in Etrees. inversion Etrees; subst p.
    destruct (Hpre 1%nat) as (pn & Hpn & Hnone); [apply list_elem_of_here|].
    inversion Hpn; subst pn. discriminate.
Defined.

Lemma BackProp_returns_only_on_finite_chain_witness :
  exists h' path,
    BackProp 3 family 2%nat (3 # 4) true = Ok h' /\
    chain family 2%nat path /\ (length path <= 3)%nat.
Proof.
  destruct (BackProp 3 family 2%nat (3 # 4) true) as [h'| |] eqn:Hrun;
    [|vm_compute in Hrun; discriminate|vm_compute in Hrun; discriminate].
  destruct (BackProp_returns_only_on_finite_chain 3 _ _ _ _ _ Hrun) as (path & Hc & Hl).
  exists h', path. split; [reflexivity|]. split; assumption.
Defined.

Lemma family_chain : chain family 2%nat [2; 1; 0]%nat.
Proof.
  eapply chain_up; [reflexivity | reflexivity |].
  eapply chain_up; [reflexivity | reflexivity |].
  eapply chain_top; reflexivity.
Defined.

Lemma BackProp_keeps_value_bounds_witness :
  exists h',
    BackProp 3 family 2%nat (3 # 4) true = Ok h' /\
    forall r n', h' !! r = Some n' -> value_bounded n'.
Proof.
  apply (BackProp_keeps_value_bounds 3 family 2%nat [2; 1; 0]%nat (3 # 4) true).
  - discriminate.
  - discriminate.
  - intros r n Hr. destruct r as [|[|[|[|r]]]]; try discriminate;
      inversion Hr; subst n; split; discriminate.
  - exact family_chain.
  - repeat constructor; eexists; (split; [reflexivity | eexists; reflexivity]).
  - simpl. lia.
Defined.

Lemma BackProp_raises_without_player_witness :
  BackProp (StateOps0 := partial_state) 3 family 2%nat (3 # 4) true = Raise AttributeError.
Proof.
  apply (BackProp_raises_without_player (StateOps0 := partial_state) [2; 1; 0]%nat).
  - exact family_chain.
  - simpl. lia.
  - exists 0%nat. eexists. split; [repeat constructor|]. split; reflexivity.
Defined.

Lemma ResetRoot_reaches_top_witness :
  ResetRoot 3 family (set_Root (Some 2%nat) primed) = Ok primed.
Proof.
  destruct (ResetRoot_reaches_top 3 family (set_Root (Some 2%nat) primed) 2%nat
              [2; 1; 0]%nat eq_refl family_chain) as (top & n & Hl & _ & _ & Hr);
    [simpl; lia|].
  inversion Hl; subst top. exact Hr.
Defined.

Lemma moveRoot_then_ResetRoot_witness :
  bind (_moveRoot one_ply primed 2%nat) (ResetRoot 2 one_ply) = Ok primed.
Proof.
  eapply (moveRoot_then_ResetRoot 2 one_ply primed 2%nat 0%nat 2%nat).
  - reflexivity.
  - reflexivity.
  - reflexivity.
  - reflexivity.
  - exists 1%nat. eexists. split; [reflexivity|]. split; [reflexivity|].
    split; [reflexivity|].
    intros j c' Hj Hc'. destruct j as [|j]; [|lia].
    inversion Hc'; subst c'. eexists. split; reflexivity.
  - reflexivity.
  - reflexivity.
  - lia.
Defined.

Lemma MoveRoot_stays_in_tree_witness :
  exists e' r',
    MoveRoot one_ply primed [2%nat] = Ok e' /\ Root e' = Some r' /\
    descends one_ply 0%nat r'.
Proof.
  destruct (MoveRoot one_ply primed [2%nat]) as [e'| |] eqn:Hrun;
    [|vm_compute in Hrun; discriminate|vm_compute in Hrun; discriminate].
  destruct (MoveRoot_stays_in_tree one_ply [2%nat] primed e' Hrun) as (_ & Hr).
  destruct Hr as [Hnone | (r & r' & Hr & Hr' & Hd)].
  - vm_compute in Hrun. inversion Hrun; subst e'. discriminate.
  - inversion Hr; subst r. exists e', r'. split; [reflexivity|]. auto.
Defined.

Lemma FindMove_preamble_root_witness :
  exists b n,
    FindMove_preamble pooled [] 0%nat 0%nat None None = Ok b /\
    b_root b = 0%nat /\ b_heap b = [n] /\ Root (b_engine b) = Some 0%nat.
Proof.
  destruct (FindMove_preamble pooled [] 0%nat 0%nat None None) as [b| |] eqn:Hrun;
    [|vm_compute in Hrun; discriminate|vm_compute in Hrun; discriminate].
  destruct (FindMove_preamble_root pooled [] 0%nat 0%nat None None b Hrun)
    as (Hroot & _ & _ & _ & _ & Hnew).
  simpl in Hnew. destruct Hnew as (Hr & n & _ & Hh).
  exists b, n. split; [reflexivity|]. split; [exact Hr|]. split; [exact Hh|].
  now rewrite Hroot, Hr.
Defined.

Lemma FindMove_returns_no_state_witness :
  exists m,
    FindMove 10 primed one_ply 0%nat 0%nat None None = Ok m /\ m_state m = PyNone.
Proof.
  destruct (FindMove 10 primed one_ply 0%nat 0%nat None None) as [m| |] eqn:Hrun;
    [|vm_compute in Hrun; discriminate|vm_compute in Hrun; discriminate].
  destruct (FindMove_returns_no_state 10 primed one_ply 0%nat 0%nat None None m Hrun)
    as (Hs & _).
  exists m. split; [reflexivity | exact Hs].
Defined.

Lemma submit_workers_fresh_roots_witness :
  exists n0,
    for_each (submit_worker pooled 0%nat) (seq 0 2) ([], [])
    = Ok ([n0; n0], [0; 1]%nat).
Proof.
  destruct (Node_init 0%nat (MCTS_LegalActions 0%nat) (MCTS_GetPriors 0%nat))
    as [n0| |] eqn:Hinit;
    [|vm_compute in Hinit; discriminate|vm_compute in Hinit; discriminate].
  destruct (submit_workers_fresh_roots pooled 0%nat n0 2 Hinit 0%nat [] []) as [Hok _].
  exists n0. exact (Hok 2%Z eq_refl).
Defined.

Lemma WinRate_between_0_and_1_witness :
  0 <= WinRate (toy_node 1 8 10 odd_legal (Some []) (Some 0%nat) odd_priors) /\
  WinRate (toy_node 1 8 10 odd_legal (Some []) (Some 0%nat) odd_priors) <= 1.
Proof.
  destruct (WinRate_between_0_and_1
              (toy_node 1 8 10 odd_legal (Some []) (Some 0%nat) odd_priors))
    as (Hlo & Hhi & _).
  - split; discriminate.
  - split; assumption.
Defined.
